(** * OpenFn kit: runtime, plan compiler, worker execution context, worker CLI

    A shallow embedding of the parts of the repository that the attempt
    lifecycle rests on:

    - [Js]       the JavaScript values, thrown values and promise settlements
                 the code manipulates;
    - [Attempt]  ws-worker/src/api/execute.ts: the per-attempt event handlers
                 ([onJobStart], [onJobComplete], [onWorkflowComplete], ...);
    - [Runner]   runtime/src/execute/expression.ts and runtime/src/runtime.ts:
                 [prepareJob], [wrapOperation], [defaultExecute], the timeout;
    - [Compiler] runtime/src/execute/compile-plan.ts: [compileEdges],
                 [findUpstream], [trapErrors] and the plan compiler;
    - [Cli]      ws-worker/src/start.ts: [setArg] and the [args] object.

    Conventions.  A JavaScript object whose property order matters is an
    association list in enumeration order, holding its own properties
    (assigning to the key [__proto__] is outside the model): the keys
    that are array indices come first, in ascending order, the others
    after them in the order of their creation.  A function held as a value
    returns [undefined] when called.  [undefined] in an optional member is
    [None].  Logger calls have no effect on any value below and are left
    out, except for what evaluating their argument can throw.  Functions
    of the repository or of its dependencies that are not part of the
    sources at hand ([compileFunction], [loadModule], [stringify],
    [crypto.randomUUID]) are parameters of the section that uses them. *)

From Stdlib Require Import ZArith Lia Ascii String Sorted.
From stdpp Require Import base option list strings gmap pretty.

Set Warnings "-register-all".

Open Scope string_scope.

(* ================================================================== *)
(** ** JavaScript values *)
(* ================================================================== *)

Module Js.

(** The values a state, a dataclip or a job member can hold.  Numbers are
    the integers plus NaN, which is all that truthiness and JSON need.  A
    function value is one the code below can hold, pass on and call: called,
    it returns [undefined] and does nothing else (a function that does more
    is not a value of this model). *)
Inductive JsValue : Type :=
| JUndefined
| JNull
| JBool (b : bool)
| JNum (z : Z)
| JNaN
| JStr (s : string)
| JArr (items : list JsValue)
| JObj (fields : list (string * JsValue))
| JFun (label : string).

(** What a [throw] or a promise rejection carries. *)
Inductive Thrown : Type :=
| Error (message : string)
| TypeError (message : string)
| SyntaxError (message : string)
| Raised (v : JsValue).

(** The three ways a promise can end up: the third is a promise on which
    neither [resolve] nor [reject] is ever called. *)
Inductive Settled (A : Type) : Type :=
| Fulfilled (a : A)
| Rejected (e : Thrown)
| Pending.
Arguments Fulfilled {A} a.
Arguments Rejected {A} e.
Arguments Pending {A}.

(** [if (v)] *)
Definition truthy (v : JsValue) : bool :=
  match v with
  | JUndefined | JNull | JNaN => false
  | JBool b => b
  | JNum z => negb (z =? 0)%Z
  | JStr s => negb (String.eqb s EmptyString)
  | JArr _ | JObj _ | JFun _ => true
  end.

(** [if (s)] for an optional string member: [undefined] and [''] are falsy. *)
Definition truthy_str (s : option string) : bool :=
  match s with
  | None => false
  | Some s => negb (String.eqb s EmptyString)
  end.

(** Own-property lookup on an object in enumeration order: [o[k]]. *)
Fixpoint obj_get {V} (k : string) (o : list (string * V)) : option V :=
  match o with
  | [] => None
  | (k', v) :: rest => if String.eqb k k' then Some v else obj_get k rest
  end.

(** [o[k] = v] while an object is copied key by key in its own enumeration
    order ([for (const k in edges) result[k] = ...]), or for a key that is
    no array index: an existing key keeps its place, a new one is last. *)
Fixpoint obj_set {V} (k : string) (v : V) (o : list (string * V)) : list (string * V) :=
  match o with
  | [] => [(k, v)]
  | (k', v') :: rest =>
      if String.eqb k k' then (k, v) :: rest else (k', v') :: obj_set k v rest
  end.

(** The array indices: the canonical decimal numerals below 2^32 - 1.  An
    object enumerates its array-index keys first, in ascending order, and
    its other string keys after them, in the order they were created. *)
Fixpoint decimal (s : string) (acc : N) : option N :=
  match s with
  | EmptyString => Some acc
  | String c rest =>
      let n := N_of_ascii c in
      if ((48 <=? n) && (n <=? 57))%N then decimal rest (acc * 10 + (n - 48))%N
      else None
  end.

Definition array_index (k : string) : option N :=
  match k with
  | EmptyString => None
  | String "0"%char EmptyString => Some 0%N
  | String "0"%char _ => None
  | _ =>
      match decimal k 0%N with
      | Some n => if (n <? 4294967295)%N then Some n else None
      | None => None
      end
  end.

(** Where a new array-index key goes: before the first key that is a
    greater array index or no array index at all. *)
Fixpoint insert_index {V} (n : N) (k : string) (v : V) (o : list (string * V))
    : list (string * V) :=
  match o with
  | [] => [(k, v)]
  | (k', v') :: rest =>
      match array_index k' with
      | Some n' =>
          if (n' <? n)%N then (k', v') :: insert_index n k v rest
          else (k, v) :: (k', v') :: rest
      | None => (k, v) :: (k', v') :: rest
      end
  end.

(** [o[k] = v] in general. *)
Definition obj_assign {V} (k : string) (v : V) (o : list (string * V)) : list (string * V) :=
  match obj_get k o, array_index k with
  | None, Some n => insert_index n k v o
  | _, _ => obj_set k v o
  end.

(** [JSON.stringify] serialises an object whose [toJSON] member is a
    function as what that function returns, which is [undefined]. *)
Definition calls_toJSON (v : JsValue) : bool :=
  match v with
  | JObj fields =>
      match obj_get "toJSON" fields with
      | Some (JFun _) => true
      | _ => false
      end
  | _ => false
  end.

(** [JSON.stringify] yields [undefined] for the values that fail this
    test, drops them from objects and writes [null] for them in arrays. *)
Definition serialisable (v : JsValue) : bool :=
  match v with
  | JUndefined | JFun _ => false
  | _ => negb (calls_toJSON v)
  end.

(** [JSON.parse(JSON.stringify(v))] below the top level. *)
Fixpoint json (v : JsValue) : JsValue :=
  match v with
  | JUndefined | JFun _ | JNaN => JNull
  | JArr items => JArr (map json items)
  | JObj fields =>
      if calls_toJSON (JObj fields) then JNull
      else
      JObj ((fix members (fs : list (string * JsValue)) : list (string * JsValue) :=
               match fs with
               | [] => []
               | (k, x) :: rest =>
                   if serialisable x then (k, json x) :: members rest
                   else members rest
               end) fields)
  | _ => v
  end.

(** [JSON.parse(stringify(v))]: for a value that [stringify] maps to
    [undefined], [JSON.parse] throws. *)
Definition json_roundtrip (v : JsValue) : Thrown + JsValue :=
  if serialisable v then inr (json v)
  else inl (SyntaxError "Unexpected token u in JSON at position 0").

(** Whether the conversion of [v] to a string throws.  An array joins the
    strings of its elements, [null] and [undefined] counting as empty; an
    object is asked for its [toString] and then its [valueOf], own or
    inherited, and the conversion throws when neither is a function that
    returns a primitive (the inherited [valueOf] returns the object). *)
Fixpoint to_string_throws (v : JsValue) : bool :=
  match v with
  | JArr items => existsb to_string_throws items
  | JObj fields =>
      match obj_get "toString" fields with
      | None | Some (JFun _) => false
      | Some _ =>
          match obj_get "valueOf" fields with
          | Some (JFun _) => false
          | _ => true
          end
      end
  | _ => false
  end.

End Js.

(* ================================================================== *)
(** ** The execution context of one attempt (ws-worker, api/execute.ts) *)
(* ================================================================== *)

Module Attempt.
Import Js.

(** Payloads pushed on the attempt channel, one constructor per event
    name.  [state.activeRun!] and [state.result!] are only asserted
    non-null to the type checker, so they stay optional here. *)
Inductive Message : Type :=
| ATTEMPT_START
| RUN_START (run_id job_id : string)
| RUN_COMPLETE (run_id job_id : option string)
               (output_dataclip_id : string) (output_dataclip : string)
| ATTEMPT_LOG (log : JsValue) (attempt_id : option string) (run_id : option string)
| ATTEMPT_COMPLETE (final_dataclip_id : option string).

(** [AttemptState]; of [plan] the handlers read the id only. *)
Record AttemptState : Type := mkAttemptState {
  activeRun : option string;
  activeJob : option string;
  plan_id : option string;
  dataclips : option (gmap string JsValue);
  result : option string
}.

(** The channel as the handlers see it: what was pushed, in order, and
    the results captured by the [receive('ok', ...)] callbacks that wait
    for an acknowledgement. *)
Record Channel : Type := mkChannel {
  pushed : list Message;
  awaiting_ok : list (option JsValue)
}.

(** [Context], with the number of ids drawn from [crypto.randomUUID] so far. *)
Record Context : Type := mkContext {
  channel : Channel;
  state : AttemptState;
  draws : nat
}.

Definition push (m : Message) (ch : Channel) : Channel :=
  mkChannel (pushed ch ++ [m])%list (awaiting_ok ch).

Definition push_receive_ok (m : Message) (captured : option JsValue) (ch : Channel) : Channel :=
  mkChannel (pushed ch ++ [m])%list (awaiting_ok ch ++ [captured])%list.

(** The events the engine delivers to the listeners. *)
Inductive Event : Type :=
| WorkflowStart
| JobStart (jobId : string)
| JobComplete (state : JsValue)
| Log (log : JsValue)
| WorkflowComplete.

Section Handlers.

(** [crypto.randomUUID()]: the id returned by the n-th call. *)
Variable randomUUID : nat → string.
(** [stringify] from ../util. *)
Variable stringify : JsValue → string.

(** [const state = { plan }] in [execute]. *)
Definition initial_state (id : option string) : AttemptState :=
  mkAttemptState None None id None None.

Definition initial_context (id : option string) : Context :=
  mkContext (mkChannel [] []) (initial_state id) 0.

Definition onWorkflowStart (ctx : Context) : Context :=
  mkContext (push ATTEMPT_START (channel ctx)) (state ctx) (draws ctx).

Definition onJobStart (ctx : Context) (event : string) : Context :=
  let st := state ctx in
  (* state.activeRun = crypto.randomUUID(); state.activeJob = event *)
  let st1 := mkAttemptState (Some (randomUUID (draws ctx))) (Some event)
               (plan_id st) (dataclips st) (result st) in
  (* run_id: state.activeJob!, job_id: state.activeJob! *)
  let msg := RUN_START event event in
  mkContext (push msg (channel ctx)) st1 (S (draws ctx)).

Definition onJobComplete (ctx : Context) (event_state : JsValue) : Context :=
  let st := state ctx in
  let dataclipId := randomUUID (draws ctx) in
  let msg := RUN_COMPLETE (activeRun st) (activeJob st) dataclipId
               (stringify event_state) in
  (* if (!state.dataclips) state.dataclips = {} *)
  let clips := match dataclips st with Some d => d | None => ∅ end in
  (* state.dataclips[dataclipId] = event.state; state.result = dataclipId;
     delete state.activeRun; delete state.activeJob *)
  let st1 := mkAttemptState None None (plan_id st)
               (Some (<[dataclipId := event_state]> clips)) (Some dataclipId) in
  mkContext (push msg (channel ctx)) st1 (S (draws ctx)).

(** [state.dataclips[state.result!]] reads a property of [undefined]
    when no clip was ever stored: the handler throws before it pushes. *)
Definition onWorkflowComplete (ctx : Context) : Thrown + Context :=
  let st := state ctx in
  match dataclips st with
  | None => inl (TypeError "Cannot read properties of undefined")
  | Some d =>
      let result_value := match result st with Some r => d !! r | None => None end in
      inr (mkContext
             (push_receive_ok (ATTEMPT_COMPLETE (result st)) result_value (channel ctx))
             st (draws ctx))
  end.

Definition onJobLog (ctx : Context) (event : JsValue) : Context :=
  let st := state ctx in
  let run_id := if truthy_str (activeRun st) then activeRun st else None in
  mkContext (push (ATTEMPT_LOG event (plan_id st) run_id) (channel ctx))
            st (draws ctx).

(** The listeners object: each event name bound to its handler. *)
Definition deliver (ev : Event) (ctx : Context) : Thrown + Context :=
  match ev with
  | WorkflowStart => inr (onWorkflowStart ctx)
  | JobStart jobId => inr (onJobStart ctx jobId)
  | JobComplete s => inr (onJobComplete ctx s)
  | Log l => inr (onJobLog ctx l)
  | WorkflowComplete => onWorkflowComplete ctx
  end.

(** A listener that throws leaves the context as it found it. *)
Definition step (ctx : Context) (ev : Event) : Context :=
  match deliver ev ctx with
  | inr ctx' => ctx'
  | inl _ => ctx
  end.

Definition run (evs : list Event) (ctx : Context) : Context :=
  fold_left step evs ctx.

End Handlers.

(** The [output_dataclip_id] of the last [RUN_COMPLETE] among pushed messages. *)
Definition output_id (m : Message) : option string :=
  match m with
  | RUN_COMPLETE _ _ id _ => Some id
  | _ => None
  end.

Definition last_run_complete (ms : list Message) : option string :=
  last (omap output_id ms).

(** The state the last [job-complete] event of a trace carries. *)
Definition completed_state (ev : Event) : option JsValue :=
  match ev with
  | JobComplete s => Some s
  | _ => None
  end.

Definition last_completed (evs : list Event) : option JsValue :=
  last (omap completed_state evs).

(** [result] names a stored clip, the one the last RUN_COMPLETE
    announced; before the first job completes there is neither. *)
Definition consistent (ctx : Context) : Prop :=
  match result (state ctx) with
  | Some r =>
      ∃ clips v, dataclips (state ctx) = Some clips ∧ clips !! r = Some v ∧
                 last_run_complete (pushed (channel ctx)) = Some r
  | None =>
      dataclips (state ctx) = None ∧
      last_run_complete (pushed (channel ctx)) = None
  end.

End Attempt.

(* ================================================================== *)
(** ** The runner (runtime: execute/expression.ts and runtime.ts) *)
(* ================================================================== *)

Module Runner.
Import Js.

(** [const TIMEOUT = 5 * 60 * 1000] *)
Definition TIMEOUT : Z := 5 * 60 * 1000.
Definition ERR_TIMEOUT : string := "timeout".
Definition ERR_RUNTIME_EXCEPTION : string := "runtime exception".

Section Run.

(** Everything an operation can act on besides the state it is handed. *)
Variable W : Type.

(** A promise of an [A], from the world it is started in to how it
    settles and the world it leaves. *)
Definition Async (A : Type) : Type := W → Settled A * W.

(** An operation may return a state, return a promise of one or throw:
    awaited, all three are an [Async] state. *)
Definition Operation : Type := JsValue → Async JsValue.

(** [Promise.resolve(a)] *)
Definition resolved {A} (a : A) : Async A := λ w, (Fulfilled a, w).

Definition rejected {A} (e : Thrown) : Async A := λ w, (Rejected e, w).

(** [acc.then(f)]: [f] is called only if and when [acc] fulfils. *)
Definition then_ {A B} (acc : Async A) (f : A → Async B) : Async B :=
  λ w, match acc w with
       | (Fulfilled a, w') => f a w'
       | (Rejected e, w') => (Rejected e, w')
       | (Pending, w') => (Pending, w')
       end.

(** runtime.ts, [defaultExecute] *)
Definition defaultExecute (operations : list Operation) : Operation :=
  λ state,
    let start := resolved state in
    fold_left (λ acc operation, then_ acc operation) operations start.

(** [clone = (state) => JSON.parse(JSON.stringify(state))] *)
Definition clone (state : JsValue) : Thrown + JsValue := json_roundtrip state.

(** [wrapOperation]; the name only feeds the log lines. *)
Definition wrapOperation (fn : Operation) (immutableState : bool) : Operation :=
  λ state,
    if immutableState then
      match clone state with
      | inr newState => fn newState
      | inl e => rejected e
      end
    else fn state.

Record Options : Type := mkOptions {
  timeout : option Z;
  immutableState : bool;
  forceSandbox : bool;
  strict : bool
}.

Record JobModule : Type := mkJobModule {
  operations : list Operation;
  execute_override : option (list Operation → Operation)
}.

Inductive Expression : Type :=
| Source (code : string)
| OperationList (ops : list Operation).

(** [loadModule] from ../modules/module-loader: the exports of the
    module ([default] and the optional [execute]), or the failure to
    load it. *)
Variable loadModule : string → Settled JobModule.

(** [prepareJob], an async function: a throw in its body is the
    rejection of the promise it returns. *)
Definition prepareJob (expression : Expression) (opts : Options) : Settled JobModule :=
  match expression with
  | Source code => loadModule code
  | OperationList ops =>
      if forceSandbox opts then
        Rejected (Error "Invalid arguments: jobs must be strings")
      else Fulfilled (mkJobModule ops None)
  end.

(** [source[k]] for the three keys asked for: only a plain object can
    own them, and nothing inherited goes by these names. *)
Definition own (source : JsValue) (k : string) : option JsValue :=
  match source with
  | JObj fields => obj_get k fields
  | _ => None
  end.

(** [source.hasOwnProperty(k)], a method call on the source: an own
    member of that name stands in for the inherited method.  If it is a
    function the call returns [undefined]; if it is anything else the call
    throws. *)
Definition hasOwnProperty (source : JsValue) (k : string) : Thrown + bool :=
  match own source "hasOwnProperty" with
  | None => inr (bool_decide (is_Some (own source k)))
  | Some (JFun _) => inr false
  | Some _ => inl (TypeError "source.hasOwnProperty is not a function")
  end.

(** [keys.forEach((k) => { if (source.hasOwnProperty(k)) target[k] = source[k] })] *)
Fixpoint assignKeys (source : JsValue) (target : list (string * JsValue))
    (keys : list string) : Thrown + list (string * JsValue) :=
  match keys with
  | [] => inr target
  | k :: keys =>
      match hasOwnProperty source k with
      | inl e => inl e
      | inr true =>
          let v := match own source k with Some v => v | None => JUndefined end in
          assignKeys source (obj_assign k v target) keys
      | inr false => assignKeys source target keys
      end
  end.

(** expression.ts, [prepareFinalState] *)
Definition prepareFinalState (opts : Options) (state : JsValue) : Thrown + JsValue :=
  if truthy state then
    if strict opts then
      match assignKeys state [] ["data"; "error"; "references"] with
      | inr target => json_roundtrip (JObj target)
      | inl e => inl e
      end
    else json_roundtrip state
  else inr state.

(** [opts.timeout || TIMEOUT] *)
Definition timeout_of (opts : Options) : Z :=
  match timeout opts with
  | Some t => if (t =? 0)%Z then TIMEOUT else t
  | None => TIMEOUT
  end.

Inductive TimerState : Type := Armed | Fired | Cleared.

(** The promise [execute] returns, together with what happened around
    it: the timers set (delay and final state), and the rejection of the
    executor's own promise when the async executor itself threw. *)
Record Run : Type := mkRun {
  promise : Settled JsValue;
  timers : list (Z * TimerState);
  executor_rejection : option Thrown;
  world : W
}.

(** [resolve(v)] / [reject(e)] on the returned promise: only the first
    call settles it. *)
Definition settle (s : Settled JsValue) (r : Run) : Run :=
  match promise r with
  | Pending => mkRun s (timers r) (executor_rejection r) (world r)
  | _ => r
  end.

(** The callback given to [setTimeout]; it runs unless the timer was
    cleared first. *)
Definition timer_fires (r : Run) : Run :=
  match timers r with
  | [(delay, Armed)] =>
      settle (Rejected (Error ERR_TIMEOUT))
             (mkRun (promise r) [(delay, Fired)] (executor_rejection r) (world r))
  | _ => r
  end.

(** [clearTimeout(tid)] *)
Definition clearTimeout (r : Run) : Run :=
  match timers r with
  | [(delay, Armed)] => mkRun (promise r) [(delay, Cleared)] (executor_rejection r) (world r)
  | _ => r
  end.

(** [if (e.toString) { logger.error(e.toString()) }] in the catch block:
    what it throws, when it does.  Reading a member of [null] or
    [undefined] throws; an own [toString] member that is truthy and no
    function cannot be called; the inherited method of an array converts
    its elements. *)
Definition report (e : Thrown) : option Thrown :=
  match e with
  | Raised JUndefined =>
      Some (TypeError "Cannot read properties of undefined (reading 'toString')")
  | Raised JNull =>
      Some (TypeError "Cannot read properties of null (reading 'toString')")
  | Raised (JObj fields) =>
      match obj_get "toString" fields with
      | Some (JFun _) | None => None
      | Some member =>
          if truthy member then Some (TypeError "e.toString is not a function")
          else None
      end
  | Raised (JArr items) =>
      if to_string_throws (JArr items)
      then Some (TypeError "Cannot convert object to primitive value")
      else None
  | _ => None
  end.

(** The catch block: it rejects with the fixed error, unless reporting
    the reason throws first.  That throw ends the async executor, whose own
    promise nothing observes, and leaves the returned promise as it was. *)
Definition catch (e : Thrown) (r : Run) : Run :=
  match report e with
  | Some t =>
      mkRun (promise r) (timers r) (Some t) (world r)
  | None => settle (Rejected (Error ERR_RUNTIME_EXCEPTION)) r
  end.

(** The [try { ... } catch] around [await reducer(initialState)], run
    when the chain settles; [finish] is what the success path hands to
    [resolve]. *)
Definition chain_settles (finish : JsValue → Thrown + JsValue)
    (chain : Settled JsValue) (r : Run) : Run :=
  match chain with
  | Fulfilled result =>
      let r := clearTimeout r in
      match finish result with
      | inr final => settle (Fulfilled final) r
      | inl e => catch e r
      end
  | Rejected e => catch e r
  | Pending => r
  end.

(** Which of the two callbacks the event loop runs first. *)
Inductive Schedule : Type := TimerFirst | ChainFirst.

(** [(execute || defaultExecute)(...operations.map(wrapOperation))] *)
Definition reducer_of (job : JobModule) (opts : Options) : Operation :=
  let make := match execute_override job with
              | Some execute => execute
              | None => defaultExecute
              end in
  make (map (λ op, wrapOperation op (immutableState opts)) (operations job)).

(** The executor both entry points hand to [new Promise]; they differ in
    what the success path resolves with. *)
Definition pipeline (finish : JsValue → Thrown + JsValue)
    (expression : Expression) (initialState : JsValue) (opts : Options)
    (sched : Schedule) (w : W) : Run :=
  let timeout := timeout_of opts in
  match prepareJob expression opts with
  | Rejected e =>
      (* the await throws inside the async executor, outside the try
         block and before setTimeout: neither resolve nor reject runs *)
      mkRun Pending [] (Some e) w
  | Pending => mkRun Pending [] None w
  | Fulfilled job =>
      let reducer := reducer_of job opts in
      (* const tid = setTimeout(..., timeout) *)
      let '(chain, w') := reducer initialState w in
      let r0 := mkRun Pending [(timeout, Armed)] None w' in
      match sched with
      | TimerFirst => chain_settles finish chain (timer_fires r0)
      | ChainFirst => timer_fires (chain_settles finish chain r0)
      end
  end.

(** expression.ts, the default export: [resolve(prepareFinalState(opts, result))] *)
Definition execute (expression : Expression) (initialState : JsValue)
    (opts : Options) : Schedule → W → Run :=
  pipeline (prepareFinalState opts) expression initialState opts.

(** [const defaultState = { data: {}, configuration: {} }] *)
Definition defaultState : JsValue :=
  JObj [("data", JObj []); ("configuration", JObj [])].

(** A parameter with a default takes it when the argument is [undefined]. *)
Definition or_default (argument default : JsValue) : JsValue :=
  match argument with
  | JUndefined => default
  | _ => argument
  end.

(** runtime.ts, [run(incomingJobs, initialState = defaultState, opts)]:
    [resolve(result)] *)
Definition run (incomingJobs : Expression) (initialState : JsValue)
    (opts : Options) : Schedule → W → Run :=
  pipeline inr incomingJobs (or_default initialState defaultState) opts.

(** The chain the way the specification writes it, on the operations
    listed last first: [op_n(await op_{n-1}(... await op_1(s)))]. *)
Fixpoint nested (last_first : list Operation) (s : JsValue) : Async JsValue :=
  match last_first with
  | [] => resolved s
  | op_n :: before => then_ (nested before s) op_n
  end.

End Run.

Arguments Source {W} code.
Arguments OperationList {W} ops.
Arguments mkJobModule {W}.
Arguments mkRun {W}.

End Runner.

(* ================================================================== *)
(** ** The plan compiler (runtime: execute/compile-plan.ts) *)
(* ================================================================== *)

Module Compiler.
Import Js.

(** The separator of [join('\n\n')]. *)
Definition blank_line : string :=
  String "010"%char (String "010"%char EmptyString).

(** The members every object inherits from [Object.prototype]: a read
    [o[k]] finds them when [o] has no own property [k]; all are truthy. *)
Definition object_prototype_members : list string :=
  ["constructor"; "hasOwnProperty"; "isPrototypeOf"; "propertyIsEnumerable";
   "toLocaleString"; "toString"; "valueOf"; "__proto__";
   "__defineGetter__"; "__defineSetter__"; "__lookupGetter__"; "__lookupSetter__"].

(** What [compileFunction] throws, as the catch block of [compileEdges]
    meets it.  The block reads [e.message] and nothing else: of an error,
    or of any other value with members, it gets the text that goes into
    the message; [null] and [undefined] have no members to read. *)
Inductive Failure : Type :=
| Reason (message : string)
| ThrewNull
| ThrewUndefined.

Section Compile.

(** A compiled condition: the function [compileFunction] returns. *)
Variable Predicate : Type.

(** [compileFunction] from ../modules/compile-function, in the condition
    context: the predicate, or what it throws. *)
Variable compileFunction : string → Failure + Predicate.

Inductive Condition : Type :=
| CSource (src : string)
| CCompiled (p : Predicate).

(** An edge object: its [condition] member and the members beside it. *)
Record EdgeObject : Type := mkEdgeObject {
  condition : option Condition;
  others : list (string * JsValue)
}.

(** The value at a successor id in a [next] map, before and after
    compilation (after it, no source text is left). *)
Inductive Edge : Type :=
| EBool (b : bool)
| EString (src : string)
| EObject (e : EdgeObject).

Inductive Next : Type :=
| NextId (id : string)
| NextMap (edges : list (string * Edge)).

Record JobSpec : Type := mkJobSpec {
  id : option string;
  expression : JsValue;
  state : JsValue;
  configuration : JsValue;
  adaptor : option string;
  next : option Next
}.

Record CompiledJobNode : Type := mkCompiledJobNode {
  node_id : string;
  node_expression : JsValue;
  node_state : option JsValue;
  node_configuration : option JsValue;
  node_next : option (list (string * Edge));
  node_previous : option string
}.

Record CompiledExecutionPlan : Type := mkCompiledExecutionPlan {
  compiled_jobs : list (string * CompiledJobNode);
  compiled_start : option string
}.

(** The job objects live in a store; [plan.jobs] is an array of
    references into it, so that writing [job.id] is seen by every holder
    of the object. *)
Definition loc : Type := nat.

Record ExecutionPlan : Type := mkExecutionPlan {
  start : option string;
  jobs : list loc
}.

(** What a [throw] inside the compiler carries: the array of edge
    errors, or anything else. *)
Inductive Throw : Type :=
| ThrowArray (errs : list Thrown)
| ThrowValue (e : Thrown).

Definition message_of (e : Thrown) : string :=
  match e with
  | Error m | TypeError m | SyntaxError m => m
  | Raised _ => "undefined"
  end.

(** The body of the [try] in [compileEdges], for one edge. *)
Definition compile_edge (edge : Edge) : Failure + Edge :=
  match edge with
  | EBool b => inr (EBool b)
  | EString src =>
      match compileFunction src with
      | inr p => inr (EObject (mkEdgeObject (Some (CCompiled p)) []))
      | inl m => inl m
      end
  | EObject e =>
      match condition e with
      | Some (CSource src) =>
          match compileFunction src with
          | inr p => inr (EObject (mkEdgeObject (Some (CCompiled p)) (others e)))
          | inl m => inl m
          end
      | _ => inr (EObject e)
      end
  end.

Definition edge_error (from edgeId reason : string) : Thrown :=
  Error ("Failed to compile edge condition " +:+ from +:+ "->" +:+ edgeId
         +:+ " (" +:+ reason +:+ ")").

(** One turn of [for (const edgeId in edges)]: the [try] and its
    [catch], where reading [e.message] of [null] or [undefined] throws in
    turn, out of the loop. *)
Definition scan_edge (from : string)
    (acc : list Thrown * list (string * Edge)) (entry : string * Edge)
    : Thrown + list Thrown * list (string * Edge) :=
  let '(errs, result) := acc in
  let '(edgeId, edge) := entry in
  match compile_edge edge with
  | inr compiled => inr (errs, obj_set edgeId compiled result)
  | inl (Reason reason) =>
      inr ((errs ++ [edge_error from edgeId reason])%list, result)
  | inl ThrewNull =>
      inl (TypeError "Cannot read properties of null (reading 'message')")
  | inl ThrewUndefined =>
      inl (TypeError "Cannot read properties of undefined (reading 'message')")
  end.

Fixpoint scan_edges (from : string) (entries : list (string * Edge))
    (acc : list Thrown * list (string * Edge))
    : Thrown + list Thrown * list (string * Edge) :=
  match entries with
  | [] => inr acc
  | entry :: rest =>
      match scan_edge from acc entry with
      | inr acc' => scan_edges from rest acc'
      | inl e => inl e
      end
  end.

Definition compileEdges (from : string) (edges : Next) : Throw + list (string * Edge) :=
  match edges with
  | NextId target => inr [(target, EBool true)]
  | NextMap entries =>
      match scan_edges from entries ([], []) with
      | inr ([], result) => inr result
      | inr (errs, _) => inl (ThrowArray errs)
      | inl e => inl (ThrowValue e)
      end
  end.

(** [if (job.next[id])] *)
Definition edge_truthy (e : Edge) : bool :=
  match e with
  | EBool b => b
  | EString src => negb (String.eqb src EmptyString)
  | EObject _ => true
  end.

Definition next_truthy_at (entries : list (string * Edge)) (target : string) : bool :=
  match obj_get target entries with
  | Some e => edge_truthy e
  | None => bool_decide (target ∈ object_prototype_members)
  end.

(** [findUpstream], on the job objects [plan.jobs] refers to. *)
Fixpoint findUpstream (plan_jobs : list JobSpec) (target : string) : option string :=
  match plan_jobs with
  | [] => None
  | job :: rest =>
      match next job with
      | Some (NextId n) =>
          if negb (String.eqb n EmptyString) && String.eqb n target
          then Some n                      (* return job.next *)
          else findUpstream rest target
      | Some (NextMap entries) =>
          if next_truthy_at entries target
          then id job                      (* return job.id *)
          else findUpstream rest target
      | None => findUpstream rest target
      end
  end.

(** [trapErrors], with the outcome of [fn()] in place of [fn]: the
    value assigned, an array thrown (added to [errs]) or anything else
    thrown (thrown again). *)
Definition trapErrors {A} (fn : Throw + A) (errs : list Thrown)
    : Thrown + (list Thrown * option A) :=
  match fn with
  | inr a => inr (errs, Some a)
  | inl (ThrowArray es) => inr ((errs ++ es)%list, None)
  | inl (ThrowValue e) => inl e
  end.

Definition with_id (job : JobSpec) (new_id : string) : JobSpec :=
  mkJobSpec (Some new_id) (expression job) (state job) (configuration job)
            (adaptor job) (next job).

(** [generateJobId] after the counter was incremented to [n]. *)
Definition generated_id (n : nat) : string := "job-" +:+ pretty n.

(** One turn of the first loop: [if (!job.id) job.id = generateJobId()]. *)
Definition ensure_id (acc : nat * gmap loc JobSpec) (l : loc) : nat * gmap loc JobSpec :=
  let '(autoJobId, h) := acc in
  match h !! l with
  | Some job =>
      if truthy_str (id job) then acc
      else (S autoJobId, <[l := with_id job (generated_id (S autoJobId))]> h)
  | None => acc
  end.

Definition ensure_ids (ls : list loc) (h : gmap loc JobSpec) : nat * gmap loc JobSpec :=
  fold_left ensure_id ls (0, h).

(** The objects an array of references denotes (every reference held
    by a JavaScript array is live). *)
Definition deref (h : gmap loc JobSpec) (ls : list loc) : list JobSpec :=
  omap (λ l, h !! l) ls.

(** [job.id!] *)
Definition id_of (job : JobSpec) : string :=
  match id job with
  | Some s => s
  | None => "undefined"
  end.

Definition next_present (n : option Next) : bool :=
  match n with
  | None => false
  | Some (NextId s) => negb (String.eqb s EmptyString)
  | Some (NextMap _) => true
  end.

(** One turn of the second loop. *)
Definition compile_job (plan_jobs : list JobSpec)
    (acc : CompiledExecutionPlan * list Thrown) (job : JobSpec)
    : Thrown + (CompiledExecutionPlan * list Thrown) :=
  let '(newPlan, errs) := acc in
  let jobId := id_of job in
  let start' := if truthy_str (compiled_start newPlan)
                then compiled_start newPlan else Some jobId in
  let st := if truthy (state job) then Some (state job) else None in
  let cfg := if truthy (configuration job) then Some (configuration job) else None in
  let trapped :=
    match next job with
    | Some n =>
        if next_present (Some n) then trapErrors (compileEdges jobId n) errs
        else inr (errs, None)
    | None => inr (errs, None)
    end in
  match trapped with
  | inl e => inl e
  | inr (errs', nxt) =>
      let newJob := mkCompiledJobNode jobId (expression job) st cfg nxt
                      (findUpstream plan_jobs jobId) in
      inr (mkCompiledExecutionPlan (obj_assign jobId newJob (compiled_jobs newPlan))
             start',
           errs')
  end.

Fixpoint compile_jobs (plan_jobs : list JobSpec) (todo : list JobSpec)
    (acc : CompiledExecutionPlan * list Thrown)
    : Thrown + (CompiledExecutionPlan * list Thrown) :=
  match todo with
  | [] => inr acc
  | job :: rest =>
      match compile_job plan_jobs acc job with
      | inl e => inl e
      | inr acc' => compile_jobs plan_jobs rest acc'
      end
  end.

(** The second loop and the final check, on the job objects as the
    first loop left them. *)
Definition compile_loaded (plan_start : option string) (plan_jobs : list JobSpec)
    : Thrown + CompiledExecutionPlan :=
  match compile_jobs plan_jobs plan_jobs (mkCompiledExecutionPlan [] plan_start, []) with
  | inl e => inl e
  | inr (newPlan, []) => inr newPlan
  | inr (_, errs) => inl (Error (String.concat blank_line (map message_of errs)))
  end.

(** The default export: the store after the call, and what the call
    returns or throws. *)
Definition compile (plan : ExecutionPlan) (h : gmap loc JobSpec)
    : gmap loc JobSpec * (Thrown + CompiledExecutionPlan) :=
  let '(_, h') := ensure_ids (jobs plan) h in
  (h', compile_loaded (start plan) (deref h' (jobs plan))).

(** The compiler is callable on any value: the declared parameter type
    is not checked at run time.  On a compiled plan, whose [jobs] is an
    object keyed by id, the first [for (const job of plan.jobs)] throws. *)
Inductive PlanArgument : Type :=
| Raw (plan : ExecutionPlan)
| Compiled (plan : CompiledExecutionPlan).

Definition compile_argument (arg : PlanArgument) (h : gmap loc JobSpec)
    : gmap loc JobSpec * (Thrown + CompiledExecutionPlan) :=
  match arg with
  | Raw plan => compile plan h
  | Compiled _ => (h, inl (TypeError "plan.jobs is not iterable"))
  end.

(** *** The claims' own vocabulary *)

(** "A's next references B's id": [next] is the string B-id, or B-id is
    a key of A's [next] map. *)
Definition references (a : JobSpec) (b_id : string) : Prop :=
  match next a with
  | Some (NextId n) => n = b_id
  | Some (NextMap entries) => is_Some (obj_get b_id entries)
  | None => False
  end.

(** The test [findUpstream] applies to a job: [next] is the non-empty
    string looked for, or a map that reads truthy at it. *)
Definition mentions (a : JobSpec) (target : string) : bool :=
  match next a with
  | Some (NextId n) => negb (String.eqb n EmptyString) && String.eqb n target
  | Some (NextMap entries) => next_truthy_at entries target
  | None => false
  end.

(** The job object at [l] has no id yet. *)
Definition lacks_id (h : gmap loc JobSpec) (l : loc) : bool :=
  match h !! l with
  | Some job => negb (truthy_str (id job))
  | None => false
  end.

(** The condition of an edge that is still source text: the edge itself
    when it is a string, its [condition] member when that is one. *)
Definition condition_source (edge : Edge) : option string :=
  match edge with
  | EBool _ => None
  | EString src => Some src
  | EObject e =>
      match condition e with
      | Some (CSource src) => Some src
      | _ => None
      end
  end.

(** The messages of the edges of a job that fail to compile with a
    reason, every edge looked at, in order. *)
Definition edge_failure (from : string) (entry : string * Edge) : option string :=
  match compileFunction <$> condition_source entry.2 with
  | Some (inl (Reason reason)) =>
      Some ("Failed to compile edge condition " +:+ from +:+ "->" +:+ entry.1
            +:+ " (" +:+ reason +:+ ")")
  | _ => None
  end.

Definition job_failures (job : JobSpec) : list string :=
  match next job with
  | Some (NextMap entries) => omap (edge_failure (id_of job)) entries
  | _ => []
  end.

Definition plan_failures (plan_jobs : list JobSpec) : list string :=
  concat (map job_failures plan_jobs).

(** The throw that is no array of errors, for an edge whose compilation
    throws [null] or [undefined]; the first one of a job, of a plan. *)
Definition edge_panic (entry : string * Edge) : option Thrown :=
  match compileFunction <$> condition_source entry.2 with
  | Some (inl ThrewNull) =>
      Some (TypeError "Cannot read properties of null (reading 'message')")
  | Some (inl ThrewUndefined) =>
      Some (TypeError "Cannot read properties of undefined (reading 'message')")
  | _ => None
  end.

Definition job_panic (job : JobSpec) : option Thrown :=
  match next job with
  | Some (NextMap entries) => head (omap edge_panic entries)
  | _ => None
  end.

Definition plan_panic (plan_jobs : list JobSpec) : option Thrown :=
  head (omap job_panic plan_jobs).

End Compile.

Arguments CSource {Predicate} src.
Arguments CCompiled {Predicate} p.
Arguments mkEdgeObject {Predicate} condition others.
Arguments condition {Predicate} e.
Arguments others {Predicate} e.
Arguments EBool {Predicate} b.
Arguments EString {Predicate} src.
Arguments EObject {Predicate} e.
Arguments NextId {Predicate} id.
Arguments NextMap {Predicate} edges.
Arguments mkJobSpec {Predicate} id expression state configuration adaptor next.
Arguments id {Predicate} j.
Arguments expression {Predicate} j.
Arguments state {Predicate} j.
Arguments configuration {Predicate} j.
Arguments adaptor {Predicate} j.
Arguments next {Predicate} j.
Arguments mkCompiledJobNode {Predicate}.
Arguments node_id {Predicate} c.
Arguments node_expression {Predicate} c.
Arguments node_state {Predicate} c.
Arguments node_configuration {Predicate} c.
Arguments node_next {Predicate} c.
Arguments node_previous {Predicate} c.
Arguments mkCompiledExecutionPlan {Predicate}.
Arguments compiled_jobs {Predicate} c.
Arguments compiled_start {Predicate} c.
Arguments edge_truthy {Predicate} e.
Arguments next_truthy_at {Predicate} entries target.
Arguments findUpstream {Predicate} plan_jobs target.
Arguments with_id {Predicate} job new_id.
Arguments ensure_id {Predicate} acc l.
Arguments ensure_ids {Predicate} ls h.
Arguments deref {Predicate} h ls.
Arguments id_of {Predicate} job.
Arguments next_present {Predicate} n.
Arguments condition_source {Predicate} edge.
Arguments references {Predicate} a b_id.
Arguments mentions {Predicate} a target.
Arguments lacks_id {Predicate} h l.
Arguments Raw {Predicate} plan.
Arguments Compiled {Predicate} plan.

End Compiler.

(* ================================================================== *)
(** ** The worker's command line (ws-worker: start.ts) *)
(* ================================================================== *)

Module Cli.

(** A JavaScript number as [parseInt] returns it: NaN, an integer that a
    double holds exactly, or an infinity. *)
Inductive Num : Type :=
| NaN
| Int (z : Z)
| Infinity (negative : bool).

(** The double nearest to an integer.  Below 2^53 it is the integer
    itself; from there on a double keeps the 53 leading bits, rounded to
    the nearest such number and to the even one of two equally near; past
    the largest double it is an infinity. *)
Definition to_double (z : Z) : Num :=
  let a := Z.abs z in
  if (a <? 2 ^ 53)%Z then Int z
  else
    let e := (Z.log2 a - 52)%Z in
    let q := Z.shiftr a e in
    let r := Z.land a (Z.ones e) in
    let half := (2 ^ (e - 1))%Z in
    let q' := if (half <? r)%Z || ((r =? half)%Z && Z.odd q) then (q + 1)%Z else q in
    let m := Z.shiftl q' e in
    if (2 ^ 1024 <=? m)%Z then Infinity (z <? 0)%Z
    else Int (if (z <? 0)%Z then - m else m)%Z.

Definition is_space (c : ascii) : bool :=
  let n := nat_of_ascii c in
  Nat.eqb n 32 || (Nat.leb 9 n && Nat.leb n 13).

Fixpoint skip_spaces (s : string) : string :=
  match s with
  | String c rest => if is_space c then skip_spaces rest else s
  | EmptyString => s
  end.

Definition digit_value (c : ascii) : option Z :=
  let n := Z.of_nat (nat_of_ascii c) in
  if (48 <=? n)%Z && (n <=? 57)%Z then Some (n - 48)%Z
  else if (97 <=? n)%Z && (n <=? 122)%Z then Some (n - 87)%Z
  else if (65 <=? n)%Z && (n <=? 90)%Z then Some (n - 55)%Z
  else None.

(** The value of the longest prefix of digits of the radix; [acc] is
    [None] until a digit was read. *)
Fixpoint digits (radix : Z) (s : string) (acc : option Z) : option Z :=
  match s with
  | EmptyString => acc
  | String c rest =>
      match digit_value c with
      | Some d =>
          if (d <? radix)%Z
          then digits radix rest (Some (default 0%Z acc * radix + d)%Z)
          else acc
      | None => acc
      end
  end.

Definition strip_sign (s : string) : bool * string :=
  match s with
  | String "-"%char rest => (true, rest)
  | String "+"%char rest => (false, rest)
  | _ => (false, s)
  end.

Definition strip_hex_prefix (s : string) : option string :=
  match s with
  | String "0"%char (String "x"%char rest) => Some rest
  | String "0"%char (String "X"%char rest) => Some rest
  | _ => None
  end.

(** [parseInt(s)] and [parseInt(s, 10)]: leading white space, a sign, a
    [0x] prefix when no radix is given, then digits; NaN without a digit.
    The number returned is the double nearest to the integer the digits
    write (past twenty digits an engine may also round the decimal text
    first; the exact reading is taken here). *)
Definition parseInt (s : string) (radix : option Z) : Num :=
  let '(negative, body) := strip_sign (skip_spaces s) in
  let '(r, body) :=
    match radix, strip_hex_prefix body with
    | None, Some rest => (16%Z, rest)
    | None, None => (10%Z, body)
    | Some r, _ => (r, body)
    end in
  match digits r body None with
  | Some v => to_double (if negative then - v else v)%Z
  | None => NaN
  end.

(** [n * 1000]: the double nearest to the product. *)
Definition times_1000 (n : Num) : Num :=
  match n with
  | NaN => NaN
  | Int z => to_double (z * 1000)%Z
  | Infinity negative => Infinity negative
  end.

(** [s.split(sep)] for a separator of one character. *)
Fixpoint split (sep : ascii) (s : string) : list string :=
  match s with
  | EmptyString => [EmptyString]
  | String c rest =>
      if Ascii.eqb c sep then EmptyString :: split sep rest
      else match split sep rest with
           | piece :: pieces => String c piece :: pieces
           | [] => [String c EmptyString]
           end
  end.

(** What yargs parsed from the command line: an option that was not
    given is [undefined]. *)
Record Parser : Type := mkParser {
  p_port : option Num;
  p_lightning : option string;
  p_repoDir : option string;
  p_secret : option string;
  p_lightningPublicKey : option string;
  p_log : option string;
  p_loop : option bool;
  p_mock : option bool;
  p_backoff : option string;
  p_capacity : option Num;
  p_statePropsToRemove : option (list string);
  p_runMemory : option Num;
  p_maxRunDurationSeconds : option Num
}.

(** The variables read from [process.env]. *)
Record Env : Type := mkEnv {
  WORKER_BACKOFF : option string;
  WORKER_CAPACITY : option string;
  WORKER_LIGHTNING_PUBLIC_KEY : option string;
  WORKER_LIGHTNING_SERVICE_URL : option string;
  WORKER_LOG_LEVEL : option string;
  WORKER_MAX_RUN_DURATION_SECONDS : option string;
  WORKER_MAX_RUN_MEMORY_MB : option string;
  WORKER_PORT : option string;
  WORKER_REPO_DIR : option string;
  WORKER_SECRET : option string;
  WORKER_STATE_PROPS_TO_REMOVE : option string
}.

Record Args : Type := mkArgs {
  port : option Num;
  lightning : option string;
  repoDir : option string;
  secret : option string;
  lightningPublicKey : option string;
  log : option string;
  loop : bool;
  mock : bool;
  backoff : option string;
  capacity : option Num;
  statePropsToRemove : option (list string);
  runMemory : option Num;
  maxRunDurationSeconds : option Num
}.

(** [setArg]; any of the three may be [undefined]. *)
Definition setArg {A} (cliValue envValue defaultValue : option A) : option A :=
  match cliValue with
  | Some v => Some v
  | None =>
      match envValue with
      | Some v => Some v
      | None => defaultValue
      end
  end.

(** [V ? f(V) : undefined] for an environment variable [V]. *)
Definition if_set {A} (v : option string) (f : string → A) : option A :=
  match v with
  | Some s => if String.eqb s EmptyString then None else Some (f s)
  | None => None
  end.

Definition env_int (v : option string) : option Num :=
  if_set v (λ s, parseInt s None).

(** [a ?? b] *)
Definition nullish {A} (a : option A) (b : A) : A :=
  match a with
  | Some v => v
  | None => b
  end.

Definition args (parser : Parser) (env : Env) : Args :=
  {| port := setArg (p_port parser) (env_int (WORKER_PORT env)) (Some (Int 2222));
     lightning := setArg (p_lightning parser) (WORKER_LIGHTNING_SERVICE_URL env)
                    (Some "ws://localhost:4000/worker");
     repoDir := setArg (p_repoDir parser) (WORKER_REPO_DIR env) None;
     secret := setArg (p_secret parser) (WORKER_SECRET env) None;
     lightningPublicKey :=
       setArg (p_lightningPublicKey parser) (WORKER_LIGHTNING_PUBLIC_KEY env) None;
     log := setArg (p_log parser) (WORKER_LOG_LEVEL env) (Some "debug");
     loop := nullish (p_loop parser) true;
     mock := nullish (p_mock parser) false;
     backoff := setArg (p_backoff parser) (WORKER_BACKOFF env) (Some "1/10");
     capacity := setArg (p_capacity parser) (env_int (WORKER_CAPACITY env)) (Some (Int 5));
     statePropsToRemove :=
       setArg (p_statePropsToRemove parser)
              (if_set (WORKER_STATE_PROPS_TO_REMOVE env) (split ","%char))
              (Some ["configuration"; "response"]);
     runMemory := setArg (p_runMemory parser) (env_int (WORKER_MAX_RUN_MEMORY_MB env))
                    (Some (Int 500));
     maxRunDurationSeconds :=
       setArg (p_maxRunDurationSeconds parser)
              (env_int (WORKER_MAX_RUN_DURATION_SECONDS env)) (Some (Int 300)) |}.

(** [const [minBackoff, maxBackoff] =
      args.backoff.split('/').map((n) => parseInt(n, 10) * 1000)] *)
Definition backoff_bounds (backoff : string) : option Num * option Num :=
  let parts := map (λ n, times_1000 (parseInt n (Some 10%Z))) (split "/"%char backoff) in
  (parts !! 0%nat, parts !! 1%nat).

(** *** The claim's vocabulary: the settings that have both a flag and a
    variable, and a common type for their values. *)

Inductive Setting : Type :=
| SPort | SLightning | SRepoDir | SSecret | SPublicKey | SLogLevel
| SBackoff | SCapacity | SRunMemory | SMaxRunDuration | SStateProps.

Inductive Value : Type :=
| VNum (n : Num)
| VStr (s : string)
| VList (l : list string).

(** Whether the variable of a setting is read through [parseInt] or
    [split], and so guarded by [V ? ... : undefined]. *)
Definition converted (s : Setting) : bool :=
  match s with
  | SPort | SCapacity | SRunMemory | SMaxRunDuration | SStateProps => true
  | _ => false
  end.

Definition cli_value (s : Setting) (p : Parser) : option Value :=
  match s with
  | SPort => VNum <$> p_port p
  | SLightning => VStr <$> p_lightning p
  | SRepoDir => VStr <$> p_repoDir p
  | SSecret => VStr <$> p_secret p
  | SPublicKey => VStr <$> p_lightningPublicKey p
  | SLogLevel => VStr <$> p_log p
  | SBackoff => VStr <$> p_backoff p
  | SCapacity => VNum <$> p_capacity p
  | SRunMemory => VNum <$> p_runMemory p
  | SMaxRunDuration => VNum <$> p_maxRunDurationSeconds p
  | SStateProps => VList <$> p_statePropsToRemove p
  end.

Definition env_variable (s : Setting) (e : Env) : option string :=
  match s with
  | SPort => WORKER_PORT e
  | SLightning => WORKER_LIGHTNING_SERVICE_URL e
  | SRepoDir => WORKER_REPO_DIR e
  | SSecret => WORKER_SECRET e
  | SPublicKey => WORKER_LIGHTNING_PUBLIC_KEY e
  | SLogLevel => WORKER_LOG_LEVEL e
  | SBackoff => WORKER_BACKOFF e
  | SCapacity => WORKER_CAPACITY e
  | SRunMemory => WORKER_MAX_RUN_MEMORY_MB e
  | SMaxRunDuration => WORKER_MAX_RUN_DURATION_SECONDS e
  | SStateProps => WORKER_STATE_PROPS_TO_REMOVE e
  end.

(** The value a variable's text stands for. *)
Definition read_variable (s : Setting) (text : string) : Value :=
  match s with
  | SPort | SCapacity | SRunMemory | SMaxRunDuration => VNum (parseInt text None)
  | SStateProps => VList (split ","%char text)
  | _ => VStr text
  end.

Definition arg_value (s : Setting) (a : Args) : option Value :=
  match s with
  | SPort => VNum <$> port a
  | SLightning => VStr <$> lightning a
  | SRepoDir => VStr <$> repoDir a
  | SSecret => VStr <$> secret a
  | SPublicKey => VStr <$> lightningPublicKey a
  | SLogLevel => VStr <$> log a
  | SBackoff => VStr <$> backoff a
  | SCapacity => VNum <$> capacity a
  | SRunMemory => VNum <$> runMemory a
  | SMaxRunDuration => VNum <$> maxRunDurationSeconds a
  | SStateProps => VList <$> statePropsToRemove a
  end.

(** The built-in defaults as the specification lists them. *)
Definition listed_default (s : Setting) : option Value :=
  match s with
  | SBackoff => Some (VStr "1/10")
  | SCapacity => Some (VNum (Int 5))
  | SRunMemory => Some (VNum (Int 500))
  | SMaxRunDuration => Some (VNum (Int 300))
  | SStateProps => Some (VList ["configuration"; "response"])
  | SPort => Some (VNum (Int 2222))
  | SLightning => Some (VStr "ws://localhost:4000/worker")
  | SLogLevel => Some (VStr "debug")
  | SRepoDir | SSecret | SPublicKey => None
  end.

Definition no_flags : Parser :=
  mkParser None None None None None None None None None None None None None.

Definition no_variables : Env :=
  mkEnv None None None None None None None None None None None.

End Cli.

(* ================================================================== *)
(** ** Sample inputs *)
(* ================================================================== *)

Module Samples.
Import Js.

(** A source of ids that never returns a job id. *)
Definition sample_uuid (n : nat) : string := "c0ffee00-0000-4000-8000-" +:+ pretty n.

Definition sample_stringify (v : JsValue) : string :=
  match v with
  | JObj [] => "{}"
  | _ => "[value]"
  end.

(** Operations that record their call in the world, a list of names. *)
Definition add_one : Runner.Operation (list string) :=
  λ s w, (match s with
          | JNum z => Fulfilled (JNum (z + 1))
          | _ => Fulfilled s
          end, (w ++ ["add_one"])%list).

Definition fail_with (m : string) : Runner.Operation (list string) :=
  λ s w, (Rejected (Error m), (w ++ ["fail"])%list).

Definition return_function : Runner.Operation (list string) :=
  λ s w, (Fulfilled (JFun "f"), (w ++ ["return_function"])%list).

Definition no_modules : string → Settled (Runner.JobModule (list string)) :=
  λ _, Rejected (Error "module not found").

Definition default_options : Runner.Options := Runner.mkOptions None false false false.
Definition sandboxed : Runner.Options := Runner.mkOptions None false true false.
Definition zero_timeout : Runner.Options := Runner.mkOptions (Some 0%Z) false false false.
Definition short_timeout : Runner.Options := Runner.mkOptions (Some 100%Z) false false false.

(** Conditions compile to their own text, except two that do not parse
    and one on which the compiler throws [null]. *)
Definition sample_compileFunction (src : string) : Compiler.Failure + string :=
  if String.eqb src "!!!not valid" then inl (Compiler.Reason "Unexpected token '!'")
  else if String.eqb src "state.data.x >"
       then inl (Compiler.Reason "Unexpected end of input")
  else if String.eqb src "throw null" then inl Compiler.ThrewNull
  else inr src.

Definition job (name : option string) (nxt : option (Compiler.Next string))
    : Compiler.JobSpec string :=
  Compiler.mkJobSpec name (JStr "fn(s => s)") JUndefined JUndefined None nxt.

Definition to_b : Compiler.Next string :=
  Compiler.NextMap [("b", Compiler.EBool true)].

(** Two jobs pointing at a third. *)
Definition two_parents_store : gmap Compiler.loc (Compiler.JobSpec string) :=
  <[0%nat := job (Some "a1") (Some to_b)]>
    (<[1%nat := job (Some "a2") (Some to_b)]>
       (<[2%nat := job (Some "b") None]> ∅)).

Definition three_jobs : Compiler.ExecutionPlan :=
  Compiler.mkExecutionPlan None [0%nat; 1%nat; 2%nat].

(** What the compiler makes of them. *)
Definition two_parents_compiled : Compiler.CompiledExecutionPlan string :=
  Compiler.mkCompiledExecutionPlan
    [("a1", Compiler.mkCompiledJobNode "a1" (JStr "fn(s => s)") None None
              (Some [("b", Compiler.EBool true)]) None);
     ("a2", Compiler.mkCompiledJobNode "a2" (JStr "fn(s => s)") None None
              (Some [("b", Compiler.EBool true)]) None);
     ("b", Compiler.mkCompiledJobNode "b" (JStr "fn(s => s)") None None
             None (Some "a1"))]
    (Some "a1").

(** A job naming its successor by a string. *)
Definition string_next_store : gmap Compiler.loc (Compiler.JobSpec string) :=
  <[0%nat := job (Some "a") (Some (Compiler.NextId "b"))]>
    (<[1%nat := job (Some "b") None]> ∅).

Definition two_jobs : Compiler.ExecutionPlan :=
  Compiler.mkExecutionPlan None [0%nat; 1%nat].

(** Jobs without ids, one with. *)
Definition anonymous_store : gmap Compiler.loc (Compiler.JobSpec string) :=
  <[0%nat := job None None]>
    (<[1%nat := job (Some "named") None]>
       (<[2%nat := job None None]> ∅)).

(** Two jobs with a condition that does not compile each. *)
Definition broken_store : gmap Compiler.loc (Compiler.JobSpec string) :=
  <[0%nat := job (Some "a")
               (Some (Compiler.NextMap
                        [("b", Compiler.EString "!!!not valid");
                         ("c", Compiler.EBool true);
                         ("d", Compiler.EObject
                                 (Compiler.mkEdgeObject
                                    (Some (Compiler.CSource "state.data.x >")) []))]))]>
    (<[1%nat := job (Some "b")
                  (Some (Compiler.NextMap [("c", Compiler.EString "!!!not valid")]))]>
       (<[2%nat := job (Some "c") None]> ∅)).

(** The same, with a condition on which the condition compiler throws
    [null] in the middle of the second job. *)
Definition panic_store : gmap Compiler.loc (Compiler.JobSpec string) :=
  <[0%nat := job (Some "a")
               (Some (Compiler.NextMap
                        [("b", Compiler.EString "!!!not valid");
                         ("c", Compiler.EBool true)]))]>
    (<[1%nat := job (Some "b")
                  (Some (Compiler.NextMap
                           [("a", Compiler.EString "state.data.x >");
                            ("c", Compiler.EString "throw null");
                            ("d", Compiler.EString "!!!not valid")]))]>
       (<[2%nat := job (Some "c")
                     (Some (Compiler.NextMap [("a", Compiler.EString "!!!not valid")]))]>
          ∅)).

(** WORKER_CAPACITY and WORKER_BACKOFF set, to the empty string. *)
Definition empty_variables : Cli.Env :=
  Cli.mkEnv (Some EmptyString) (Some EmptyString) None None None None None None None
            None None.

(** WORKER_CAPACITY=10 *)
Definition capacity_ten : Cli.Env :=
  Cli.mkEnv None (Some "10") None None None None None None None None None.

End Samples.

(* ================================================================== *)
(** ** Further vocabulary *)
(* ================================================================== *)

Module JsonData.
Import Js.

(** Data JSON can carry as it is: no [undefined], no function and no NaN
    at any depth. *)
Fixpoint plain (v : JsValue) : bool :=
  match v with
  | JUndefined | JFun _ | JNaN => false
  | JArr items => forallb plain items
  | JObj fields =>
      (fix all (fs : list (string * JsValue)) : bool :=
         match fs with
         | [] => true
         | (_, x) :: rest => plain x && all rest
         end) fields
  | _ => true
  end.

(** The three members a strict final state may keep. *)
Definition strict_keys : list string := ["data"; "error"; "references"].

(** The value has a [hasOwnProperty] member of its own that cannot be
    called. *)
Definition shadowed (v : JsValue) : bool :=
  match Runner.own v "hasOwnProperty" with
  | None | Some (JFun _) => false
  | Some _ => true
  end.

(** The reasons of a rejection that have no [toString] to call: [null]
    and [undefined], an object whose own [toString] member is truthy and
    no function, an array with an element that cannot be converted. *)
Definition unreportable (e : Thrown) : bool :=
  match e with
  | Raised JUndefined | Raised JNull => true
  | Raised (JObj fields) =>
      match obj_get "toString" fields with
      | Some (JFun _) | None => false
      | Some member => truthy member
      end
  | Raised (JArr items) => existsb to_string_throws items
  | _ => false
  end.

(** An operation that rejects with [null]. *)
Definition reject_null : Runner.Operation (list string) :=
  λ s log, (Rejected (Raised JNull), (log ++ ["reject_null"])%list).

(** An operation that answers differently on data JSON cannot carry. *)
Definition picky : Runner.Operation (list string) :=
  λ s log, (if plain s then Fulfilled s else Rejected (Error "not plain"),
            (log ++ ["picky"])%list).

(** The same operation without the check. *)
Definition lenient : Runner.Operation (list string) :=
  λ s log, (Fulfilled s, (log ++ ["picky"])%list).

(** A state with credentials beside its data. *)
Definition state_with_configuration : JsValue :=
  JObj [("configuration", JObj [("password", JStr "secret")]);
        ("data", JObj [("n", JNum 7)]);
        ("references", JArr [])].

Definition strict_options : Runner.Options := Runner.mkOptions None false false true.

End JsonData.

Module AttemptTrace.
Import Attempt.

(** The two events that open and close a run. *)
Definition starts_or_completes (ev : Event) : bool :=
  match ev with
  | JobStart _ | JobComplete _ => true
  | _ => false
  end.

(** A stretch of events in which no job starts or completes. *)
Definition quiet (evs : list Event) : bool :=
  forallb (λ ev, negb (starts_or_completes ev)) evs.

(** A stretch of events in which no job completes. *)
Definition no_completion (evs : list Event) : bool :=
  forallb (λ ev, match ev with JobComplete _ => false | _ => true end) evs.

End AttemptTrace.

Module PlanShape.
Import Js Compiler.

Section Shape.

Variable Predicate : Type.

(** An edge that holds no source text any more. *)
Definition is_compiled (e : Edge Predicate) : bool :=
  match e with
  | EBool _ => true
  | EString _ => false
  | EObject o =>
      match condition o with
      | Some (CSource _) => false
      | _ => true
      end
  end.

Variable compileFunction : string → Failure + Predicate.

(** The node the second loop makes of one job, given all the jobs of the
    plan: the members it copies, the edges it compiles, the upstream job
    it finds.  The adaptor is not among them. *)
Definition node_for (all : list (JobSpec Predicate)) (j : JobSpec Predicate)
    : CompiledJobNode Predicate :=
  mkCompiledJobNode (id_of j) (expression j)
    (if truthy (state j) then Some (state j) else None)
    (if truthy (configuration j) then Some (configuration j) else None)
    (match next j with
     | Some n =>
         if next_present (Some n) then
           match compileEdges Predicate compileFunction (id_of j) n with
           | inr edges => Some edges
           | inl _ => None
           end
         else None
     | None => None
     end)
    (findUpstream all (id_of j)).

End Shape.

Arguments is_compiled {Predicate} e.

(** Whether a key is an array index, and which. *)
Definition is_index (k : string) : bool :=
  match array_index k with
  | Some _ => true
  | None => false
  end.

Definition index_of (k : string) : N :=
  match array_index k with
  | Some n => n
  | None => 0%N
  end.

(** Jobs whose ids are numerals, out of order, around one that is not. *)
Definition numbered_store : gmap loc (JobSpec string) :=
  <[0%nat := Samples.job (Some "2") (Some (NextId "b"))]>
    (<[1%nat := Samples.job (Some "b") None]>
       (<[2%nat := Samples.job (Some "1") (Some (NextId "2"))]> ∅)).

Definition numbered_compiled : CompiledExecutionPlan string :=
  mkCompiledExecutionPlan
    [("1", mkCompiledJobNode "1" (JStr "fn(s => s)") None None
             (Some [("2", EBool true)]) None);
     ("2", mkCompiledJobNode "2" (JStr "fn(s => s)") None None
             (Some [("b", EBool true)]) (Some "2"));
     ("b", mkCompiledJobNode "b" (JStr "fn(s => s)") None None
             None (Some "b"))]
    (Some "2").

(** A map of three edges, one of each kind. *)
Definition mixed_edges : list (string * Edge string) :=
  [("b", EBool true);
   ("c", EString "state.data.ok");
   ("d", EObject (mkEdgeObject (Some (CSource "!state.error")) [("label", JStr "else")]))].

(** Two anonymous jobs around a named one, the first pointing at it. *)
Definition pipeline_store : gmap loc (JobSpec string) :=
  <[0%nat := Samples.job None (Some (NextMap [("named", EBool true)]))]>
    (<[1%nat := Samples.job (Some "named") (Some (NextId "job-2"))]>
       (<[2%nat := Samples.job None None]> ∅)).

(** What the compiler makes of them: the second job is found upstream of
    the third, which it names by a string, under the third's own id. *)
Definition pipeline_compiled : CompiledExecutionPlan string :=
  mkCompiledExecutionPlan
    [("job-1", mkCompiledJobNode "job-1" (JStr "fn(s => s)") None None
                 (Some [("named", EBool true)]) None);
     ("named", mkCompiledJobNode "named" (JStr "fn(s => s)") None None
                 (Some [("job-2", EBool true)]) (Some "job-1"));
     ("job-2", mkCompiledJobNode "job-2" (JStr "fn(s => s)") None None
                 None (Some "job-2"))]
    (Some "job-1").

End PlanShape.

Module Startup.
Import Cli.

(** Where start.ts goes once [args] is built: [process.exit(1)], or on to
    create the engine with the arguments as adjusted. *)
Inductive Outcome : Type :=
| Exit (code : Z)
| Proceed (a : Args).

Definition with_lightning_and_secret (a : Args) (url : option string)
    (key : option string) : Args :=
  mkArgs (port a) url (repoDir a) key (lightningPublicKey a) (log a) (loop a)
         (mock a) (backoff a) (capacity a) (statePropsToRemove a) (runMemory a)
         (maxRunDurationSeconds a).

(** [if (args.lightning === 'mock') { ... } else if (!args.secret) { ... }] *)
Definition check_secret (a : Args) : Outcome :=
  match lightning a with
  | Some url =>
      if String.eqb url "mock" then
        Proceed (with_lightning_and_secret a (Some "ws://localhost:8888/worker")
                   (if Js.truthy_str (secret a) then secret a else Some "abdefg"))
      else if Js.truthy_str (secret a) then Proceed a else Exit 1
  | None => if Js.truthy_str (secret a) then Proceed a else Exit 1
  end.

(** The settings whose variable is read through [parseInt]. *)
Definition numeric (s : Setting) : bool :=
  match s with
  | SPort | SCapacity | SRunMemory | SMaxRunDuration => true
  | _ => false
  end.

(** The character does not occur in the text. *)
Fixpoint lacks (c : ascii) (s : string) : bool :=
  match s with
  | EmptyString => true
  | String c' rest => negb (Ascii.eqb c' c) && lacks c rest
  end.

(** WORKER_STATE_PROPS_TO_REMOVE=configuration,response,token *)
Definition three_props : Env :=
  mkEnv None None None None None None None None None None
        (Some "configuration,response,token").

(** WORKER_MAX_RUN_DURATION_SECONDS=90 *)
Definition ninety_seconds : Env :=
  mkEnv None None None None None (Some "90") None None None None None.

End Startup.

(* ================================================================== *)
(** * Properties *)
(* ================================================================== *)

(** ** The execution context *)

Module AttemptFacts.
Import Js Attempt Samples.

Lemma last_run_complete_snoc ms m :
  last_run_complete (ms ++ [m]) =
  match output_id m with
  | Some i => Some i
  | None => last_run_complete ms
  end.
Proof.
  unfold last_run_complete. rewrite omap_app. simpl.
  destruct (output_id m) as [i|]; simpl.
  - by rewrite last_snoc.
  - by rewrite app_nil_r.
Qed.

Section Facts.

Variable randomUUID : nat → string.
Variable stringify : JsValue → string.

Local Abbreviation onJobStart := (Attempt.onJobStart randomUUID).
Local Abbreviation onJobComplete := (Attempt.onJobComplete randomUUID stringify).
Local Abbreviation deliver := (Attempt.deliver randomUUID stringify).
Local Abbreviation step := (Attempt.step randomUUID stringify).
Local Abbreviation run := (Attempt.run randomUUID stringify).

(** What [onJobStart] writes and what it pushes, for any context. *)
Lemma onJobStart_effect ctx jobId :
  activeRun (state (onJobStart ctx jobId)) = Some (randomUUID (draws ctx)) ∧
  activeJob (state (onJobStart ctx jobId)) = Some jobId ∧
  pushed (channel (onJobStart ctx jobId)) =
    (pushed (channel ctx) ++ [RUN_START jobId jobId])%list.
Proof. done. Qed.

Lemma consistent_initial id : consistent (initial_context id).
Proof. done. Qed.

Lemma consistent_push ctx m st' n :
  output_id m = None →
  result st' = result (state ctx) →
  dataclips st' = dataclips (state ctx) →
  consistent ctx →
  consistent (mkContext (push m (channel ctx)) st' n).
Proof.
  unfold consistent; simpl. intros Hm -> ->.
  rewrite last_run_complete_snoc, Hm. done.
Qed.

Lemma consistent_step ctx ev : consistent ctx → consistent (step ctx ev).
Proof.
  intros Hc. unfold Attempt.step.
  destruct ev as [|jobId|s|l|]; simpl.
  - by apply consistent_push.
  - by apply consistent_push.
  - unfold consistent; simpl. rewrite last_run_complete_snoc; simpl.
    eexists _, s. split; [done|]. split; [|done]. apply lookup_insert_eq.
  - by apply consistent_push.
  - unfold onWorkflowComplete.
    destruct (dataclips (state ctx)) as [d|] eqn:Hd; [|done].
    unfold consistent in *; simpl.
    rewrite last_run_complete_snoc; simpl.
    destruct (result (state ctx)); exact Hc.
Qed.

Lemma consistent_run evs ctx : consistent ctx → consistent (run evs ctx).
Proof.
  revert ctx. induction evs as [|ev evs IH]; intros ctx Hc; [done|].
  simpl. apply IH. by apply consistent_step.
Qed.

(** A clip table exists as soon as, and only if, a job has completed. *)
Lemma dataclips_step_defined ctx ev :
  is_Some (dataclips (state (step ctx ev))) ↔
  is_Some (dataclips (state ctx)) ∨ ∃ s, ev = JobComplete s.
Proof.
  unfold Attempt.step. destruct ev as [|jobId|s|l|]; simpl.
  - split; [by left | by intros [?|[? ?]]].
  - split; [by left | by intros [?|[? ?]]].
  - split; [intros _; right; by eexists | intros _; by eexists].
  - split; [by left | by intros [?|[? ?]]].
  - unfold onWorkflowComplete.
    destruct (dataclips (state ctx)) eqn:E; simpl; rewrite ?E.
    + split; [by left | intros _; by eexists].
    + split; [by left | by intros [?|[? ?]]].
Qed.

Lemma dataclips_run_defined evs ctx :
  is_Some (dataclips (state (run evs ctx))) ↔
  is_Some (dataclips (state ctx)) ∨ ∃ s, JobComplete s ∈ evs.
Proof.
  revert ctx. induction evs as [|ev evs IH]; intros ctx; simpl.
  - split; [by left|]. intros [?|[s Hs]]; [done|]. by apply elem_of_nil in Hs.
  - rewrite IH, dataclips_step_defined. split.
    + intros [[?|[s ->]]|[s Hs]]; [by left| |].
      * right. exists s. apply elem_of_cons. by left.
      * right. exists s. apply elem_of_cons. by right.
    + intros [?|[s Hs]]; [by left; left|].
      apply elem_of_cons in Hs as [<-|Hs]; [left; right; by eexists|].
      right. by exists s.
Qed.

Lemma last_completed_snoc evs ev :
  last_completed (evs ++ [ev]) =
  match completed_state ev with
  | Some s => Some s
  | None => last_completed evs
  end.
Proof.
  unfold last_completed. rewrite omap_app. simpl.
  destruct (completed_state ev) as [s|]; simpl.
  - by rewrite last_snoc.
  - by rewrite app_nil_r.
Qed.

(** The clip under [result] is the state of the last job that completed. *)
Lemma result_is_last_completed id evs :
  let ctx := run evs (initial_context id) in
  match last_completed evs with
  | Some s =>
      ∃ clips r, dataclips (state ctx) = Some clips ∧
                 result (state ctx) = Some r ∧ clips !! r = Some s
  | None => dataclips (state ctx) = None
  end.
Proof.
  induction evs as [|ev evs IH] using rev_ind; [done|].
  unfold Attempt.run. rewrite fold_left_app. cbn [fold_left].
  fold (run evs (initial_context id)). simpl in IH.
  rewrite last_completed_snoc.
  destruct ev as [|jobId|s|l|]; cbn [completed_state]; try exact IH.
  - eexists _, _. split; [done|]. split; [done|]. apply lookup_insert_eq.
  - unfold Attempt.step, Attempt.deliver, onWorkflowComplete.
    destruct (last_completed evs) as [s|].
    + destruct IH as (clips & r & Hc & Hr & Hs). rewrite Hc. simpl.
      by exists clips, r.
    + by rewrite IH.
Qed.

(** C4, as the code has it.  Whatever events an attempt has seen, when
    [workflow-complete] arrives: either a job has completed, and then
    ATTEMPT_COMPLETE is pushed, the [final_dataclip_id] pushed is the
    [output_dataclip_id] of the last RUN_COMPLETE pushed before, and the
    clip table holds under that id the state the last completed job ended
    with, whatever that state is; or no job has completed, and then the
    handler throws and pushes nothing. *)
Theorem C4_final_dataclip_is_last_run_complete
    (id : option string) (before : list Event) :
  let ctx := run before (initial_context id) in
  match onWorkflowComplete ctx with
  | inr ctx' =>
      (∃ s, JobComplete s ∈ before) ∧
      ∃ clips final v,
        last_completed before = Some v ∧
        dataclips (state ctx) = Some clips ∧
        result (state ctx) = Some final ∧
        clips !! final = Some v ∧
        state ctx' = state ctx ∧
        pushed (channel ctx') =
          (pushed (channel ctx) ++ [ATTEMPT_COMPLETE (Some final)])%list ∧
        last_run_complete (pushed (channel ctx)) = Some final ∧
        awaiting_ok (channel ctx') = (awaiting_ok (channel ctx) ++ [Some v])%list
  | inl _ => (¬ ∃ s, JobComplete s ∈ before) ∧ last_completed before = None
  end.
Proof.
  intros ctx.
  pose proof (consistent_run before _ (consistent_initial id)) as Hc.
  pose proof (dataclips_run_defined before (initial_context id)) as Hd.
  pose proof (result_is_last_completed id before) as Hl.
  fold ctx in Hc, Hd. simpl in Hl. fold ctx in Hl. unfold onWorkflowComplete.
  destruct (dataclips (state ctx)) as [clips|] eqn:Hclips.
  - split.
    { destruct Hd as [Hd _]. destruct Hd as [[? ?]|?]; [by eexists|done|done]. }
    unfold consistent in Hc. rewrite Hclips in Hc.
    destruct (last_completed before) as [s|]; [|done].
    destruct Hl as (clips' & r & [= <-] & Hr & Hs).
    rewrite Hr in Hc. destruct Hc as (clips' & v & [= <-] & Hv & Hlast).
    exists clips, r, s. simpl. rewrite Hr, Hs. done.
  - split.
    + intros Hex. destruct Hd as [_ Hd].
      destruct Hd as [x Hx]; [by right|done].
    + destruct (last_completed before) as [s|]; [|done].
      by destruct Hl as (clips' & r & ? & _).
Qed.

End Facts.

(** C1.  One job-start event, traced on the code: the fresh run id goes to
    [state.activeRun] and the job id to [state.activeJob], but the
    RUN_START pushed carries the job id in [run_id] as well as in
    [job_id], not the run id just generated. *)
Theorem C1_run_start_sends_job_id_as_run_id :
  let ctx := onJobStart sample_uuid (initial_context (Some "attempt-1")) "job-1" in
  activeRun (state ctx) = Some (sample_uuid 0) ∧
  activeJob (state ctx) = Some "job-1" ∧
  pushed (channel ctx) = [RUN_START "job-1" "job-1"] ∧
  sample_uuid 0 ≠ "job-1".
Proof. by vm_compute. Qed.

(** C4 as stated fails when the last job ends with no state at all: the
    attempt completes, and what the clip table holds under [result] is
    [undefined]. *)
Lemma C4_counterexample :
  let ctx := run sample_uuid sample_stringify
               [WorkflowStart; JobStart "job-1"; JobComplete JUndefined]
               (initial_context (Some "attempt-1")) in
  ∃ ctx' clips,
    onWorkflowComplete ctx = inr ctx' ∧
    last (pushed (channel ctx')) = Some (ATTEMPT_COMPLETE (Some (sample_uuid 1))) ∧
    result (state ctx') = Some (sample_uuid 1) ∧
    dataclips (state ctx') = Some clips ∧
    clips !! sample_uuid 1 = Some JUndefined.
Proof.
  eexists _, _. split; [reflexivity|]. split; [reflexivity|].
  split; [reflexivity|]. split; [reflexivity|]. by vm_compute.
Qed.

(** A full attempt of one job, for reference: the messages in order. *)
Example one_job_attempt :
  pushed (channel (run sample_uuid sample_stringify
                     [WorkflowStart; JobStart "job-1"; JobComplete (JObj []);
                      WorkflowComplete]
                     (initial_context (Some "attempt-1")))) =
  [ATTEMPT_START;
   RUN_START "job-1" "job-1";
   RUN_COMPLETE (Some (sample_uuid 0)) (Some "job-1") (sample_uuid 1) "{}";
   ATTEMPT_COMPLETE (Some (sample_uuid 1))].
Proof. by vm_compute. Qed.

End AttemptFacts.

(** ** The runner *)

Module RunnerFacts.
Import Js Runner Samples.

Section Facts.

Variable W : Type.
Variable loadModule : string → Settled (JobModule W).

Local Abbreviation Operation := (Runner.Operation W).
Local Abbreviation Async := (Runner.Async W).

(** [then] looks at its first argument only through how it settles. *)
Lemma then_ext {A B} (p q : Async A) (f : A → Async B) w :
  p w = q w → then_ W p f w = then_ W q f w.
Proof. unfold then_. by intros ->. Qed.

Lemma then_resolved {A B} (a : A) (f : A → Async B) w :
  then_ W (resolved W a) f w = f a w.
Proof. done. Qed.

Lemma then_assoc {A B C} (p : Async A) (f : A → Async B) (g : B → Async C) w :
  then_ W (then_ W p f) g w = then_ W p (λ a, then_ W (f a) g) w.
Proof. unfold then_. by destruct (p w) as [[a|e|] w']. Qed.

(** The accumulated promise of [reduce], continued from any promise. *)
Lemma reduce_then (ops : list Operation) (acc : Async JsValue) w :
  fold_left (λ acc operation, then_ W acc operation) ops acc w =
  then_ W acc (defaultExecute W ops) w.
Proof.
  revert acc w. induction ops as [|op ops IH]; intros acc w.
  - unfold defaultExecute, then_; simpl. by destruct (acc w) as [[a|e|] w'].
  - simpl. rewrite IH, then_assoc. unfold then_ at 1 3.
    destruct (acc w) as [[a|e|] w']; [|done|done].
    unfold defaultExecute; simpl. rewrite IH. apply then_ext. done.
Qed.

Lemma defaultExecute_nil s w : defaultExecute W [] s w = (Fulfilled s, w).
Proof. done. Qed.

(** Each operation receives the awaited result of the one before it. *)
Lemma defaultExecute_cons op (ops : list Operation) s w :
  defaultExecute W (op :: ops) s w = then_ W (op s) (defaultExecute W ops) w.
Proof. unfold defaultExecute at 1; simpl. by rewrite reduce_then. Qed.

Lemma defaultExecute_app (pre post : list Operation) s w :
  defaultExecute W (pre ++ post) s w =
  then_ W (defaultExecute W pre s) (defaultExecute W post) w.
Proof.
  unfold defaultExecute at 1. rewrite fold_left_app. by rewrite reduce_then.
Qed.

Lemma defaultExecute_nested (ops : list Operation) s w :
  defaultExecute W ops s w = nested W (rev ops) s w.
Proof.
  revert w. induction ops as [|op ops IH] using rev_ind; intros w; [done|].
  rewrite rev_app_distr; simpl.
  rewrite defaultExecute_app.
  unfold then_ at 1 2. rewrite IH.
  destruct (nested W (rev ops) s w) as [[a|e|] w']; [|done|done].
  rewrite defaultExecute_cons. unfold then_.
  by destruct (op a w') as [[a'|e'|] w''].
Qed.


(** With [forceSandbox] set, an operation list never settles the promise
    of either entry point: the error is thrown where only the executor's
    own, unobserved promise can take it. *)
Lemma forceSandbox_never_settles ops initialState opts sched w :
  forceSandbox opts = true →
  execute W loadModule (OperationList ops) initialState opts sched w =
    mkRun Pending [] (Some (Error "Invalid arguments: jobs must be strings")) w ∧
  run W loadModule (OperationList ops) initialState opts sched w =
    mkRun Pending [] (Some (Error "Invalid arguments: jobs must be strings")) w.
Proof.
  intros H. unfold execute, run, pipeline, prepareJob. by rewrite H.
Qed.

Lemma timeout_of_cases opts :
  match timeout opts with
  | Some t => if decide (t = 0%Z) then timeout_of opts = 300000%Z
              else timeout_of opts = t
  | None => timeout_of opts = 300000%Z
  end.
Proof.
  unfold timeout_of. destruct (timeout opts) as [t|]; [|done].
  case_decide as Ht.
  - by subst t.
  - apply Z.eqb_neq in Ht. by rewrite Ht.
Qed.

(** What [assignKeys] and [prepareFinalState] throw is an error object,
    which the catch block can report. *)
Lemma assignKeys_throws source target keys e :
  assignKeys source target keys = inl e → ∃ m, e = TypeError m.
Proof.
  revert target. induction keys as [|k keys IH]; intros target; simpl; [done|].
  unfold hasOwnProperty.
  destruct (own source "hasOwnProperty") as [[]|]; try (intros [= <-]; by eexists);
    try apply IH.
  case_bool_decide; apply IH.
Qed.

Lemma prepareFinalState_reported opts state e :
  prepareFinalState opts state = inl e → report e = None.
Proof.
  unfold prepareFinalState, json_roundtrip.
  destruct (truthy state); [|done].
  destruct (strict opts).
  - destruct (assignKeys state [] _) as [t|target] eqn:E.
    + intros [= <-]. by destruct (assignKeys_throws _ _ _ _ E) as [m ->].
    + destruct (serialisable _); [done|]. by intros [= <-].
  - destruct (serialisable _); [done|]. by intros [= <-].
Qed.

(** C7, as the code has it.  When the job is prepared, exactly one timer
    is set, of [opts.timeout] milliseconds if that is a number other than
    0 and of 300000 otherwise.  If the timer fires first, or the chain
    never settles, the run rejects with 'timeout'.  If the chain resolves
    first, the timer is cleared and the run resolves with the final state
    that [prepareFinalState] makes of the result (and rejects with
    'runtime exception' should that step throw). *)
Theorem C7_single_timeout_over_the_chain
    (expression : Expression W) (initialState : JsValue) (opts : Options)
    (job : JobModule W) (sched : Schedule) (w : W) :
  prepareJob W loadModule expression opts = Fulfilled job →
  let r := execute W loadModule expression initialState opts sched w in
  let chain := (reducer_of W job opts initialState w).1 in
  map fst (timers W r) = [timeout_of opts] ∧
  (timeout_of opts =
     match timeout opts with
     | Some t => if decide (t = 0%Z) then 300000%Z else t
     | None => 300000%Z
     end) ∧
  (sched = TimerFirst ∨ chain = Pending →
     promise W r = Rejected (Error "timeout") ∧
     timers W r = [(timeout_of opts, Fired)]) ∧
  (∀ result, sched = ChainFirst → chain = Fulfilled result →
     timers W r = [(timeout_of opts, Cleared)] ∧
     promise W r = match prepareFinalState opts result with
                   | inr final => Fulfilled final
                   | inl _ => Rejected (Error "runtime exception")
                   end).
Proof.
  intros Hjob r chain. subst r chain.
  unfold execute, pipeline. rewrite Hjob.
  destruct (reducer_of W job opts initialState w) as [chain w'] eqn:Hred; simpl.
  split; [|split; [|split]].
  - destruct sched, chain as [v|e|]; simpl; try done.
    + destruct (prepareFinalState opts v) as [e|final] eqn:E; [|done].
      unfold catch. by rewrite (prepareFinalState_reported _ _ _ E).
    + unfold catch. by destruct (report e).
    + destruct (prepareFinalState opts v) as [e|final] eqn:E; [|done].
      unfold catch. by rewrite (prepareFinalState_reported _ _ _ E).
    + unfold catch. by destruct (report e).
  - pose proof (timeout_of_cases opts) as H.
    destruct (timeout opts) as [t|]; [|done]. by case_decide.
  - intros [->| ->].
    + destruct chain as [v|e|]; simpl; try done.
      * destruct (prepareFinalState opts v) as [e|final] eqn:E; [|done].
        unfold catch. by rewrite (prepareFinalState_reported _ _ _ E).
      * unfold catch. by destruct (report e).
    + by destruct sched.
  - intros v -> ->; simpl.
    destruct (prepareFinalState opts v) as [e|final] eqn:E; [|done].
    unfold catch. by rewrite (prepareFinalState_reported _ _ _ E).
Qed.

End Facts.

(** C5.  A run with [forceSandbox] on an operation list, traced on the
    code: the returned promise never settles (no timer is set either);
    the error 'Invalid arguments: jobs must be strings' only rejects the
    promise of the async executor, which nothing observes. *)
Theorem C5_forceSandbox_error_is_not_delivered :
  ∀ sched,
    execute (list string) no_modules (OperationList [add_one]) (JNum 1)
            sandboxed sched [] =
      mkRun Pending [] (Some (Error "Invalid arguments: jobs must be strings")) [] ∧
    run (list string) no_modules (OperationList [add_one]) (JNum 1)
        sandboxed sched [] =
      mkRun Pending [] (Some (Error "Invalid arguments: jobs must be strings")) [].
Proof. intros sched. by apply forceSandbox_never_settles. Qed.

(** The same operations without [forceSandbox] run and resolve. *)
Example without_forceSandbox :
  execute (list string) no_modules (OperationList [add_one; add_one]) (JNum 1)
          default_options ChainFirst [] =
  mkRun (Fulfilled (JNum 3)) [(300000%Z, Cleared)] None ["add_one"; "add_one"].
Proof. by vm_compute. Qed.

(** C7 at concrete runs. *)
Lemma C7_single_timeout_witness :
  prepareJob (list string) no_modules (OperationList [add_one]) short_timeout =
    Fulfilled (mkJobModule [add_one] None) ∧
  timers _ (execute (list string) no_modules (OperationList [add_one]) (JNum 1)
              short_timeout ChainFirst []) = [(100%Z, Cleared)] ∧
  promise _ (execute (list string) no_modules (OperationList [add_one]) (JNum 1)
               short_timeout ChainFirst []) = Fulfilled (JNum 2).
Proof.
  split; [done|].
  pose proof (C7_single_timeout_over_the_chain (list string) no_modules
                (OperationList [add_one]) (JNum 1) short_timeout
                (mkJobModule [add_one] None) ChainFirst [] eq_refl) as H.
  destruct H as (_ & _ & _ & H).
  exact (H (JNum 2) eq_refl eq_refl).
Defined.

(** C7 as stated fails on three counts: a timeout of 0 is replaced by the
    default; a result that does not survive [prepareFinalState] rejects
    although the chain resolved first; and a run whose preparation fails
    sets no timer at all. *)
Lemma C7_counterexample :
  timeout zero_timeout = Some 0%Z ∧
  timers _ (execute (list string) no_modules (OperationList [add_one]) (JNum 1)
              zero_timeout ChainFirst []) = [(300000%Z, Cleared)] ∧
  execute (list string) no_modules (OperationList [return_function]) (JNum 1)
          default_options ChainFirst [] =
    mkRun (Rejected (Error "runtime exception")) [(300000%Z, Cleared)] None
          ["return_function"] ∧
  timers _ (execute (list string) no_modules (OperationList [add_one]) (JNum 1)
              sandboxed TimerFirst []) = [].
Proof. by vm_compute. Qed.


End RunnerFacts.

(** ** The plan compiler *)

Module CompilerFacts.
Import Js Compiler Samples.

Section Facts.

Variable Predicate : Type.
Variable compileFunction : string → Failure + Predicate.

Local Abbreviation JobSpec := (Compiler.JobSpec Predicate).
Local Abbreviation Edge := (Compiler.Edge Predicate).
Local Abbreviation CompiledExecutionPlan := (Compiler.CompiledExecutionPlan Predicate).
Local Abbreviation compile_edge := (Compiler.compile_edge Predicate compileFunction).
Local Abbreviation scan_edge := (Compiler.scan_edge Predicate compileFunction).
Local Abbreviation compileEdges := (Compiler.compileEdges Predicate compileFunction).
Local Abbreviation compile_job := (Compiler.compile_job Predicate compileFunction).
Local Abbreviation compile_jobs := (Compiler.compile_jobs Predicate compileFunction).
Local Abbreviation compile_loaded := (Compiler.compile_loaded Predicate compileFunction).
Local Abbreviation compile := (Compiler.compile Predicate compileFunction).
Local Abbreviation compile_argument := (Compiler.compile_argument Predicate compileFunction).
Local Abbreviation edge_failure := (Compiler.edge_failure Predicate compileFunction).
Local Abbreviation job_failures := (Compiler.job_failures Predicate compileFunction).
Local Abbreviation plan_failures := (Compiler.plan_failures Predicate compileFunction).

(** *** Edge errors are collected over the whole scan *)

Local Abbreviation scan_edges := (Compiler.scan_edges Predicate compileFunction).
Local Abbreviation edge_panic := (Compiler.edge_panic Predicate compileFunction).
Local Abbreviation job_panic := (Compiler.job_panic Predicate compileFunction).
Local Abbreviation plan_panic := (Compiler.plan_panic Predicate compileFunction).

(** The three things one turn of the loop can do. *)
Lemma scan_edge_cases from errs result edgeId (edge : Edge) :
  (∃ c, compile_edge edge = inr c ∧
        edge_failure from (edgeId, edge) = None ∧ edge_panic (edgeId, edge) = None ∧
        scan_edge from (errs, result) (edgeId, edge) =
          inr (errs, obj_set edgeId c result)) ∨
  (∃ m, edge_failure from (edgeId, edge) = Some m ∧ edge_panic (edgeId, edge) = None ∧
        scan_edge from (errs, result) (edgeId, edge) =
          inr ((errs ++ [Error m])%list, result)) ∨
  (∃ t, edge_panic (edgeId, edge) = Some t ∧
        scan_edge from (errs, result) (edgeId, edge) = inl t).
Proof.
  unfold Compiler.scan_edge, Compiler.edge_failure, Compiler.edge_panic. simpl.
  destruct edge as [b|src|[[[src|p]|] oth]]; simpl;
    try (left; by eexists);
    (destruct (compileFunction src) as [[reason| |]|c];
     [right; left; by eexists|right; right; by eexists|right; right; by eexists
     |left; by eexists]).
Qed.

(** The loop over the edges stops early only for a throw that is no
    collected error; otherwise, whatever it started with, it ends with
    the failures of all entries appended. *)
Lemma scan_edges_errors from (entries : list (string * Edge)) errs result :
  match head (omap edge_panic entries) with
  | Some t => scan_edges from entries (errs, result) = inl t
  | None =>
      ∃ result',
        scan_edges from entries (errs, result) =
        inr ((errs ++ (Error <$> omap (edge_failure from) entries))%list, result')
  end.
Proof.
  revert errs result. induction entries as [|[edgeId edge] entries IH];
    intros errs result.
  - simpl. rewrite app_nil_r. by eexists.
  - cbn [Compiler.scan_edges omap list_omap].
    destruct (scan_edge_cases from errs result edgeId edge)
      as [(c & _ & -> & -> & ->)|[(m & -> & -> & ->)|(t & -> & ->)]].
    + apply IH.
    + specialize (IH (errs ++ [Error m])%list result).
      destruct (head (omap edge_panic entries)); [done|].
      destruct IH as [result' ->]. exists result'.
      by rewrite fmap_cons, <- app_assoc.
    + done.
Qed.

Lemma compileEdges_throws_all from (entries : list (string * Edge)) :
  match head (omap edge_panic entries) with
  | Some t => compileEdges from (NextMap entries) = inl (ThrowValue t)
  | None =>
      match omap (edge_failure from) entries with
      | [] => ∃ result, compileEdges from (NextMap entries) = inr result
      | fs => compileEdges from (NextMap entries) = inl (ThrowArray (Error <$> fs))
      end
  end.
Proof.
  unfold Compiler.compileEdges.
  pose proof (scan_edges_errors from entries [] []) as H.
  destruct (head (omap edge_panic entries)) as [t|]; [by rewrite H|].
  destruct H as [result' ->]. simpl.
  destruct (omap (edge_failure from) entries) as [|f fs]; simpl; [by eexists|done].
Qed.

(** An edge map that compiles had no failure of either kind. *)
Lemma compileEdges_clean from (entries result : list (string * Edge)) :
  compileEdges from (NextMap entries) = inr result →
  omap (edge_failure from) entries = [] ∧ head (omap edge_panic entries) = None.
Proof.
  intros Hc. pose proof (compileEdges_throws_all from entries) as H.
  destruct (head (omap edge_panic entries)) as [t|]; [congruence|].
  destruct (omap (edge_failure from) entries) as [|f fs]; [done|congruence].
Qed.

(** One job: a throw that is no array ends the compilation; otherwise
    the errors grow by the failures of its edges, and the loop goes on. *)
Lemma compile_job_errors (plan_jobs : list JobSpec) newPlan errs (job : JobSpec) :
  match job_panic job with
  | Some t => compile_job plan_jobs (newPlan, errs) job = inl t
  | None =>
      ∃ newPlan',
        compile_job plan_jobs (newPlan, errs) job =
        inr (newPlan', (errs ++ (Error <$> job_failures job))%list)
  end.
Proof.
  unfold Compiler.compile_job, Compiler.job_failures, Compiler.job_panic.
  destruct (next job) as [[target|entries]|]; cbn [next_present].
  - destruct (negb (String.eqb target EmptyString)); simpl;
      rewrite app_nil_r; by eexists.
  - pose proof (compileEdges_throws_all (id_of job) entries) as H.
    destruct (head (omap edge_panic entries)) as [t|]; [by rewrite H|].
    destruct (omap (edge_failure (id_of job)) entries) as [|f fs].
    + destruct H as [result ->]. simpl. rewrite app_nil_r. by eexists.
    + rewrite H. simpl. by eexists.
  - rewrite app_nil_r. by eexists.
Qed.

Lemma compile_jobs_errors (plan_jobs todo : list JobSpec) newPlan errs :
  match plan_panic todo with
  | Some t => compile_jobs plan_jobs todo (newPlan, errs) = inl t
  | None =>
      ∃ newPlan',
        compile_jobs plan_jobs todo (newPlan, errs) =
        inr (newPlan', (errs ++ (Error <$> plan_failures todo))%list)
  end.
Proof.
  revert newPlan errs. induction todo as [|job todo IH]; intros newPlan errs.
  - simpl. rewrite app_nil_r. by eexists.
  - pose proof (compile_job_errors plan_jobs newPlan errs job) as H1.
    unfold Compiler.plan_panic in *. cbn [Compiler.compile_jobs omap list_omap].
    destruct (job_panic job) as [t|]; [by rewrite H1|].
    destruct H1 as [np1 ->].
    specialize (IH np1 (errs ++ (Error <$> job_failures job))%list).
    destruct (head (omap job_panic todo)) as [t|]; [done|].
    destruct IH as [np2 ->]. exists np2.
    unfold Compiler.plan_failures; simpl.
    by rewrite fmap_app, app_assoc.
Qed.

Lemma message_of_errors (fs : list string) : map message_of (Error <$> fs) = fs.
Proof. induction fs as [|f fs IH]; [done|]. simpl. f_equal. exact IH. Qed.

Lemma compile_loaded_outcome plan_start (plan_jobs : list JobSpec) :
  match plan_panic plan_jobs with
  | Some t => compile_loaded plan_start plan_jobs = inl t
  | None =>
      match plan_failures plan_jobs with
      | [] => ∃ newPlan, compile_loaded plan_start plan_jobs = inr newPlan
      | fs => compile_loaded plan_start plan_jobs =
              inl (Error (String.concat
                            (String "010"%char (String "010"%char EmptyString)) fs))
      end
  end.
Proof.
  unfold Compiler.compile_loaded.
  pose proof (compile_jobs_errors plan_jobs plan_jobs
                (mkCompiledExecutionPlan [] plan_start) []) as H.
  destruct (plan_panic plan_jobs) as [t|]; [by rewrite H|].
  destruct H as [np ->].
  simpl. destruct (plan_failures plan_jobs) as [|f fs] eqn:Hfs; simpl.
  - by eexists.
  - by rewrite message_of_errors.
Qed.

(** C6.  Every edge of every job is looked at, and a condition that
    fails to compile stops nothing: an edge map throws the array of the
    failures of all its entries, in order, each worded 'Failed to compile
    edge condition <from>-><target> (<reason>)'; and the compiler throws
    exactly when some edge of some job fails, one error whose message is
    all those messages, in the order of the jobs and of their edges,
    joined by two line feeds.  The one throw from the compilation of an
    edge that is no such array (the condition compiler threw [null] or
    [undefined], which have no message to read) ends everything at once:
    the edge map, and then the compiler, throw it as it is, whatever
    failures were collected before and whatever edges and jobs come
    after. *)
Theorem C6_edge_errors_are_collected :
  (∀ from (entries : list (string * Edge)),
     match head (omap edge_panic entries) with
     | Some t => compileEdges from (NextMap entries) = inl (ThrowValue t)
     | None =>
         match omap (edge_failure from) entries with
         | [] => ∃ result, compileEdges from (NextMap entries) = inr result
         | fs => compileEdges from (NextMap entries) = inl (ThrowArray (Error <$> fs))
         end
     end) ∧
  (∀ plan h,
     let '(h', outcome) := compile plan h in
     match plan_panic (deref h' (jobs plan)) with
     | Some t => outcome = inl t
     | None =>
         match plan_failures (deref h' (jobs plan)) with
         | [] => ∃ newPlan, outcome = inr newPlan
         | fs =>
             outcome =
             inl (Error (String.concat
                           (String "010"%char (String "010"%char EmptyString)) fs))
         end
     end).
Proof.
  split; [apply compileEdges_throws_all|].
  intros plan h. unfold Compiler.compile.
  destruct (ensure_ids (jobs plan) h) as [n h'].
  apply compile_loaded_outcome.
Qed.

(** *** Objects as association lists *)

Lemma obj_get_set {V} k k' (v : V) o :
  obj_get k' (obj_set k v o) = if String.eqb k' k then Some v else obj_get k' o.
Proof.
  induction o as [|[k0 v0] o IH]; simpl; [done|].
  destruct (String.eqb_spec k k0) as [<-|Hk]; simpl.
  - by destruct (String.eqb_spec k' k).
  - rewrite IH. destruct (String.eqb_spec k' k0) as [->|]; [|done].
    destruct (String.eqb_spec k0 k); [congruence|done].
Qed.

Lemma obj_get_insert_index {V} n k k' (v : V) o :
  obj_get k o = None →
  obj_get k' (insert_index n k v o) =
  if String.eqb k' k then Some v else obj_get k' o.
Proof.
  induction o as [|[k0 v0] o IH]; [done|].
  cbn [obj_get insert_index].
  destruct (String.eqb_spec k k0) as [->|Hk]; [done|]. intros Hfresh.
  destruct (array_index k0) as [n0|]; [destruct (n0 <? n)%N|]; cbn [obj_get];
    try done.
  rewrite (IH Hfresh).
  destruct (String.eqb_spec k' k0) as [->|]; [|done].
  by destruct (String.eqb_spec k0 k).
Qed.

(** Reading after writing, wherever the key went. *)
Lemma obj_get_assign {V} k k' (v : V) o :
  obj_get k' (obj_assign k v o) = if String.eqb k' k then Some v else obj_get k' o.
Proof.
  unfold obj_assign.
  destruct (obj_get k o) as [x|] eqn:E; [apply obj_get_set|].
  destruct (array_index k) as [n|]; [by apply obj_get_insert_index|apply obj_get_set].
Qed.

(** *** The first loop: ids *)

Lemma ensure_id_cases k (h : gmap loc JobSpec) l :
  (ensure_id (k, h) l = (k, h) ∧ lacks_id h l = false) ∨
  (∃ job, h !! l = Some job ∧ truthy_str (id job) = false ∧
          lacks_id h l = true ∧
          ensure_id (k, h) l =
            (S k, <[l := with_id job (generated_id (S k))]> h)).
Proof.
  unfold Compiler.ensure_id, lacks_id.
  destruct (h !! l) as [job|]; [|by left].
  destruct (truthy_str (id job)) eqn:E; [by left|].
  right. by exists job.
Qed.

Lemma ensure_fold_counter ls (k : nat) (h : gmap loc JobSpec) :
  (k ≤ (fold_left ensure_id ls (k, h)).1 ≤ k + length ls)%nat.
Proof.
  revert k h. induction ls as [|l0 ls IH]; intros k h; cbn [fold_left length]; [simpl; lia|].
  destruct (ensure_id_cases k h l0) as [[-> _]|(job0 & _ & _ & _ & ->)].
  - specialize (IH k h). lia.
  - specialize (IH (S k) (<[l0 := with_id job0 (generated_id (S k))]> h)). lia.
Qed.

Lemma ensure_fold_kept ls k (h : gmap loc JobSpec) l job :
  h !! l = Some job → truthy_str (id job) = true →
  (fold_left ensure_id ls (k, h)).2 !! l = Some job.
Proof.
  revert k h. induction ls as [|l0 ls IH]; intros k h Hl Ht; cbn [fold_left]; [done|].
  destruct (ensure_id_cases k h l0) as [[-> _]|(job0 & H0 & Hf & _ & ->)].
  - by apply IH.
  - apply IH; [|done]. rewrite lookup_insert_ne; [done|].
    intros ->. rewrite H0 in Hl. injection Hl as ->. congruence.
Qed.

Lemma ensure_fold_none ls k (h : gmap loc JobSpec) l :
  h !! l = None → (fold_left ensure_id ls (k, h)).2 !! l = None.
Proof.
  revert k h. induction ls as [|l0 ls IH]; intros k h Hl; cbn [fold_left]; [done|].
  destruct (ensure_id_cases k h l0) as [[-> _]|(job0 & H0 & _ & _ & ->)].
  - by apply IH.
  - apply IH. rewrite lookup_insert_ne; [done|]. intros ->. congruence.
Qed.

Lemma ensure_fold_outside ls k (h : gmap loc JobSpec) l :
  l ∉ ls → (fold_left ensure_id ls (k, h)).2 !! l = h !! l.
Proof.
  revert k h. induction ls as [|l0 ls IH]; intros k h Hl; cbn [fold_left]; [done|].
  apply not_elem_of_cons in Hl as [Hne Hl].
  destruct (ensure_id_cases k h l0) as [[-> _]|(job0 & H0 & _ & _ & ->)].
  - by apply IH.
  - rewrite IH by done. by rewrite lookup_insert_ne.
Qed.

Lemma ensure_fold_written ls (k : nat) (h : gmap loc JobSpec) l job :
  l ∈ ls → h !! l = Some job → truthy_str (id job) = false →
  ∃ n, (k < n ≤ (fold_left ensure_id ls (k, h)).1)%nat ∧
       (fold_left ensure_id ls (k, h)).2 !! l =
         Some (with_id job (generated_id n)).
Proof.
  revert k h. induction ls as [|l0 ls IH]; intros k h Hin Hl Hf; cbn [fold_left].
  - by apply elem_of_nil in Hin.
  - destruct (ensure_id_cases k h l0) as [[-> Hno]|(job0 & H0 & _ & _ & ->)].
    + apply elem_of_cons in Hin as [->|Hin].
      * unfold lacks_id in Hno. rewrite Hl, Hf in Hno. done.
      * by apply IH.
    + destruct (decide (l = l0)) as [->|Hne].
      * rewrite H0 in Hl. injection Hl as ->.
        exists (S k). split.
        -- pose proof (ensure_fold_counter ls (S k)
                         (<[l0 := with_id job (generated_id (S k))]> h)). lia.
        -- apply ensure_fold_kept; [apply lookup_insert_eq|done].
      * apply elem_of_cons in Hin as [?|Hin]; [done|].
        destruct (IH (S k) (<[l0 := with_id job0 (generated_id (S k))]> h) Hin)
          as (n & Hn & Hw); [by rewrite lookup_insert_ne|done|].
        exists n. split; [lia|done].
Qed.

Lemma lacks_id_insert_ne (h : gmap loc JobSpec) l0 job0 l :
  l ≠ l0 → lacks_id (<[l0 := job0]> h) l = lacks_id h l.
Proof. intros Hne. unfold lacks_id. by rewrite lookup_insert_ne. Qed.

(** Among distinct objects the numbers follow the order of the array. *)
Lemma ensure_fold_exact pre l post k (h : gmap loc JobSpec) job :
  NoDup pre → l ∉ pre → h !! l = Some job → truthy_str (id job) = false →
  (fold_left ensure_id (pre ++ l :: post) (k, h)).2 !! l =
  Some (with_id job (generated_id (S (k + length (List.filter (lacks_id h) pre))))).
Proof.
  revert k h. induction pre as [|l0 pre IH]; intros k h Hnd Hnot Hl Hf.
  - cbn [app fold_left List.filter length].
    destruct (ensure_id_cases k h l) as [[_ Hno]|(job' & H' & _ & _ & ->)].
    + unfold lacks_id in Hno. rewrite Hl, Hf in Hno. done.
    + rewrite H' in Hl. injection Hl as ->.
      rewrite Nat.add_0_r. apply ensure_fold_kept; [apply lookup_insert_eq|done].
  - apply NoDup_cons in Hnd as [Hl0 Hnd].
    apply not_elem_of_cons in Hnot as [Hne Hnot].
    cbn [app fold_left List.filter].
    destruct (ensure_id_cases k h l0) as [[-> ->]|(job0 & H0 & _ & -> & ->)].
    + by apply IH.
    + rewrite IH; [|done|done|by rewrite lookup_insert_ne|done].
      assert (List.filter (lacks_id (<[l0 := with_id job0 (generated_id (S k))]> h)) pre
              = List.filter (lacks_id h) pre) as ->.
      { apply List.filter_ext_in. intros l' Hl'. apply lacks_id_insert_ne.
        intros ->. apply Hl0. by apply list_elem_of_In. }
      simpl. do 3 f_equal. lia.
Qed.

Lemma ensure_fold_all_truthy ls k (h : gmap loc JobSpec) l job :
  l ∈ ls → (fold_left ensure_id ls (k, h)).2 !! l = Some job →
  truthy_str (id job) = true.
Proof.
  intros Hin Hl. destruct (h !! l) as [job0|] eqn:H0.
  - destruct (truthy_str (id job0)) eqn:Ht.
    + rewrite (ensure_fold_kept ls k h l job0 H0 Ht) in Hl. by injection Hl as <-.
    + destruct (ensure_fold_written ls k h l job0 Hin H0 Ht) as (n & _ & Hw).
      rewrite Hw in Hl. by injection Hl as <-.
  - by rewrite (ensure_fold_none ls k h l H0) in Hl.
Qed.

Lemma ensure_fold_fixpoint ls k (h : gmap loc JobSpec) :
  (∀ l job, l ∈ ls → h !! l = Some job → truthy_str (id job) = true) →
  fold_left ensure_id ls (k, h) = (k, h).
Proof.
  induction ls as [|l0 ls IH]; intros Hall; cbn [fold_left]; [done|].
  destruct (ensure_id_cases k h l0) as [[-> _]|(job0 & H0 & Hf & _ & _)].
  - apply IH. intros l job Hin. apply Hall. by apply elem_of_cons; right.
  - rewrite (Hall l0 job0) in Hf; [done| |done]. by apply elem_of_cons; left.
Qed.

Lemma elem_of_deref (h : gmap loc JobSpec) ls job :
  job ∈ deref h ls ↔ ∃ l, l ∈ ls ∧ h !! l = Some job.
Proof. unfold Compiler.deref. apply list_elem_of_omap. Qed.

(** After the first loop every job of the plan has an id. *)
Lemma compiled_ids_truthy plan (h : gmap loc JobSpec) job :
  job ∈ deref (compile plan h).1 (jobs plan) →
  truthy_str (id job) = true ∧ id job = Some (id_of job).
Proof.
  unfold Compiler.compile, Compiler.ensure_ids.
  destruct (fold_left ensure_id (jobs plan) (0, h)) as [n h'] eqn:E; simpl.
  intros (l & Hin & Hl)%elem_of_deref.
  assert (truthy_str (id job) = true) as Ht.
  { eapply (ensure_fold_all_truthy (jobs plan) 0 h l); [done|]. by rewrite E. }
  split; [done|]. unfold Compiler.id_of. by destruct (id job).
Qed.

Lemma with_id_changes (job : JobSpec) n :
  truthy_str (id job) = false → with_id job (generated_id n) ≠ job.
Proof.
  intros Hf Heq. rewrite <- Heq in Hf. done.
Qed.

(** C10.  Compiling writes on the caller's job objects.  A job that has
    an id is left exactly as it was.  A job of the plan that has none is
    given 'job-<n>' on the object itself, nothing else of it changing,
    with [n] counting the id-less jobs in the order of the array; this
    happens whether or not compilation then succeeds, and the compiled
    plan is built from the objects as written.  Objects the plan does
    not hold are untouched. *)
Theorem C10_compile_writes_ids_on_the_input plan (h : gmap loc JobSpec) :
  let h' := (compile plan h).1 in
  (∀ l job, h !! l = Some job → truthy_str (id job) = true → h' !! l = Some job) ∧
  (∀ l job, l ∈ jobs plan → h !! l = Some job → truthy_str (id job) = false →
     ∃ n, (1 ≤ n ≤ length (jobs plan))%nat ∧
          h' !! l = Some (with_id job (generated_id n)) ∧
          h' !! l ≠ h !! l) ∧
  (∀ pre l post job,
     jobs plan = (pre ++ l :: post)%list → NoDup pre → l ∉ pre →
     h !! l = Some job → truthy_str (id job) = false →
     h' !! l = Some (with_id job
                       (generated_id (S (length (List.filter (lacks_id h) pre)))))) ∧
  (∀ l, l ∉ jobs plan → h' !! l = h !! l) ∧
  (compile plan h).2 = compile_loaded (start plan) (deref h' (jobs plan)).
Proof.
  unfold Compiler.compile, Compiler.ensure_ids.
  destruct (fold_left ensure_id (jobs plan) (0, h)) as [n h'] eqn:E.
  cbn [fst snd].
  assert (h' = (fold_left ensure_id (jobs plan) (0, h)).2) as Hh' by by rewrite E.
  split; [|split; [|split; [|split]]].
  - intros l job Hl Ht. rewrite Hh'. by apply ensure_fold_kept.
  - intros l job Hin Hl Hf.
    destruct (ensure_fold_written (jobs plan) 0 h l job Hin Hl Hf) as (m & Hm & Hw).
    pose proof (ensure_fold_counter (jobs plan) 0 h) as Hc.
    exists m. rewrite Hh', Hw, Hl. split; [lia|]. split; [done|].
    intros [= Heq]. by apply with_id_changes in Heq.
  - intros pre l post job Hjobs Hnd Hnot Hl Hf.
    rewrite Hh', Hjobs. by rewrite (ensure_fold_exact pre l post 0 h job).
  - intros l Hnot. rewrite Hh'. by apply ensure_fold_outside.
  - done.
Qed.

(** *** Compiled edges pass through unchanged *)

Lemma compile_edge_compiled (e c : Edge) :
  compile_edge e = inr c → compile_edge c = inr c.
Proof.
  destruct e as [b|src|[cond oth]]; simpl.
  - by intros [= <-].
  - destruct (compileFunction src); [done|]. by intros [= <-].
  - destruct cond as [[src|p]|]; simpl.
    + destruct (compileFunction src); [done|]. by intros [= <-].
    + by intros [= <-].
    + by intros [= <-].
Qed.

Lemma obj_get_app {V} k (a b : list (string * V)) :
  obj_get k (a ++ b) =
  match obj_get k a with
  | Some v => Some v
  | None => obj_get k b
  end.
Proof.
  induction a as [|[k0 v0] a IH]; simpl; [done|].
  by destruct (String.eqb k k0).
Qed.

Lemma obj_get_None_keys {V} k (o : list (string * V)) :
  obj_get k o = None ↔ k ∉ o.*1.
Proof.
  induction o as [|[k0 v0] o IH]; simpl.
  - split; [intros _; apply not_elem_of_nil|done].
  - rewrite not_elem_of_cons. destruct (String.eqb_spec k k0) as [->|Hne].
    + split; [done|]. by intros [? _].
    + rewrite IH. split; [done|]. by intros [_ ?].
Qed.

Lemma obj_set_fresh {V} k (v : V) o :
  obj_get k o = None → obj_set k v o = (o ++ [(k, v)])%list.
Proof.
  induction o as [|[k0 v0] o IH]; simpl; [done|].
  destruct (String.eqb k k0); [done|]. intros H. by rewrite IH.
Qed.

Lemma obj_set_keys {V} k (v : V) o x :
  x ∈ (obj_set k v o).*1 → x = k ∨ x ∈ o.*1.
Proof.
  induction o as [|[k0 v0] o IH]; simpl.
  - intros ?%list_elem_of_singleton. by left.
  - destruct (String.eqb_spec k k0) as [->|Hne]; simpl.
    + intros [->|?]%elem_of_cons; [by left|]. right. by apply elem_of_cons; right.
    + intros [->|Hx]%elem_of_cons.
      * right. by apply elem_of_cons; left.
      * destruct (IH Hx) as [->|?]; [by left|]. right. by apply elem_of_cons; right.
Qed.

Lemma obj_set_NoDup {V} k (v : V) o : NoDup o.*1 → NoDup (obj_set k v o).*1.
Proof.
  induction o as [|[k0 v0] o IH]; simpl.
  - intros _. apply NoDup_singleton.
  - intros [Hk0 Hnd]%NoDup_cons.
    destruct (String.eqb_spec k k0) as [->|Hne]; simpl.
    + by apply NoDup_cons.
    + apply NoDup_cons. split; [|by apply IH].
      intros [->|?]%obj_set_keys; done.
Qed.

Lemma obj_set_Forall {V} (P : string * V → Prop) k v o :
  P (k, v) → Forall P o → Forall P (obj_set k v o).
Proof.
  intros Hkv. induction 1 as [|[k0 v0] o H0 Ho IH]; simpl.
  - by apply Forall_singleton.
  - destruct (String.eqb k k0); by apply Forall_cons.
Qed.

(** What the scan builds holds compiled edges only, under distinct keys. *)
Lemma scan_edges_result from (entries : list (string * Edge)) errs acc errs' acc' :
  scan_edges from entries (errs, acc) = inr (errs', acc') →
  Forall (λ kv, compile_edge kv.2 = inr kv.2) acc → NoDup acc.*1 →
  Forall (λ kv, compile_edge kv.2 = inr kv.2) acc' ∧ NoDup acc'.*1.
Proof.
  revert errs acc. induction entries as [|[k e] entries IH]; intros errs acc.
  - by intros [= <- <-].
  - cbn [Compiler.scan_edges].
    destruct (scan_edge_cases from errs acc k e)
      as [(c & He & _ & _ & ->)|[(m & _ & _ & ->)|(t & _ & ->)]]; [| |done].
    + intros Hfold Hall Hnd. eapply IH; [exact Hfold| |].
      * apply obj_set_Forall; [|done]. simpl. by eapply compile_edge_compiled.
      * by apply obj_set_NoDup.
    + apply IH.
Qed.

(** Scanning such a map again rebuilds it, entry by entry. *)
Lemma scan_compiled from (R : list (string * Edge)) errs acc :
  Forall (λ kv, compile_edge kv.2 = inr kv.2) R →
  NoDup R.*1 → (∀ k, k ∈ R.*1 → obj_get k acc = None) →
  scan_edges from R (errs, acc) = inr (errs, (acc ++ R)%list).
Proof.
  revert acc. induction R as [|[k v] R IH]; intros acc Hall Hnd Hfresh.
  - simpl. by rewrite app_nil_r.
  - apply Forall_cons in Hall as [Hv Hall]. simpl in Hv.
    apply NoDup_cons in Hnd as [Hk Hnd]. fold (R.*1) in Hk, Hnd.
    cbn [Compiler.scan_edges]. unfold Compiler.scan_edge at 1. rewrite Hv.
    rewrite obj_set_fresh by (apply Hfresh; by apply elem_of_cons; left).
    rewrite IH; [by rewrite <- app_assoc|done|done|].
    intros k' Hk'. rewrite obj_get_app.
    rewrite Hfresh by (by apply elem_of_cons; right). simpl.
    destruct (String.eqb_spec k' k) as [->|]; done.
Qed.

Lemma compileEdges_compiled from (edges compiled : list (string * Edge)) :
  compileEdges from (NextMap edges) = inr compiled →
  compileEdges from (NextMap compiled) = inr compiled.
Proof.
  unfold Compiler.compileEdges.
  destruct (scan_edges from edges ([], [])) as [e|[errs result]] eqn:Hfold; [done|].
  destruct errs; [|done]. intros [= ->].
  destruct (scan_edges_result _ _ _ _ _ _ Hfold) as [Hall Hnd];
    [apply Forall_nil_2|apply NoDup_nil_2|].
  by rewrite scan_compiled.
Qed.


(** *** The second loop: nodes and their previous *)

Lemma findUpstream_skip (pre rest : list JobSpec) target :
  Forall (λ j, mentions j target = false) pre →
  findUpstream (pre ++ rest) target = findUpstream rest target.
Proof.
  induction 1 as [|j pre Hj _ IH]; [done|].
  simpl. unfold mentions in Hj.
  destruct (next j) as [[n|entries]|]; [| |done].
  - by rewrite Hj.
  - by rewrite Hj.
Qed.

Lemma findUpstream_first_map (pre : list JobSpec) a post entries target :
  Forall (λ j, mentions j target = false) pre →
  next a = Some (NextMap entries) →
  next_truthy_at entries target = true →
  findUpstream (pre ++ a :: post) target = id a.
Proof.
  intros Hpre Hnext Ht. rewrite findUpstream_skip by done.
  simpl. by rewrite Hnext, Ht.
Qed.

Lemma compile_job_node (all : list JobSpec) np errs job np' errs' :
  compile_job all (np, errs) job = inr (np', errs') →
  ∃ node,
    node_id node = id_of job ∧
    node_previous node = findUpstream all (id_of job) ∧
    compiled_jobs np' = obj_assign (id_of job) node (compiled_jobs np).
Proof.
  unfold Compiler.compile_job.
  destruct (match next job with
            | Some n => _
            | None => _
            end) as [e|[errs1 nxt]]; [done|].
  intros [= <- _]. eexists. split; [|split]; [| |reflexivity]; reflexivity.
Qed.

Lemma compile_jobs_nodes (all todo : list JobSpec) np errs np' errs' :
  compile_jobs all todo (np, errs) = inr (np', errs') →
  (∀ k node, obj_get k (compiled_jobs np) = Some node →
             node_id node = k ∧ node_previous node = findUpstream all k) →
  (∀ k node, obj_get k (compiled_jobs np') = Some node →
             node_id node = k ∧ node_previous node = findUpstream all k) ∧
  (∀ k, is_Some (obj_get k (compiled_jobs np)) ∨
        (∃ job, job ∈ todo ∧ id_of job = k) →
        is_Some (obj_get k (compiled_jobs np'))).
Proof.
  revert np errs. induction todo as [|job todo IH]; intros np errs.
  - intros [= <- <-] Hinv. split; [done|].
    intros k [?|(job & Hin & _)]; [done|]. by apply elem_of_nil in Hin.
  - cbn [Compiler.compile_jobs].
    destruct (compile_job all (np, errs) job) as [e|[np1 errs1]] eqn:Hjob; [done|].
    destruct (compile_job_node _ _ _ _ _ _ Hjob) as (node & Hid & Hprev & Hjobs).
    intros Hrest Hinv.
    destruct (IH np1 errs1 Hrest) as [Hinv' Hsome].
    { intros k nd. rewrite Hjobs, obj_get_assign.
      destruct (String.eqb_spec k (id_of job)) as [->|_]; [|by apply Hinv].
      intros [= <-]. by rewrite Hid, Hprev. }
    split; [done|].
    intros k Hk. apply Hsome.
    destruct Hk as [Hk|(j & Hin & Hj)].
    + left. rewrite Hjobs, obj_get_assign. by destruct (String.eqb k (id_of job)).
    + apply elem_of_cons in Hin as [->|Hin].
      * left. rewrite Hjobs, obj_get_assign, <- Hj. by rewrite String.eqb_refl.
      * right. by exists j.
Qed.

(** C2, as the code has it.  In a compiled plan every job of the input
    has a node under its id, with one [previous] member: what
    [findUpstream] returns for that id.  When the first job in plan
    order that mentions the id (as its [next] string, or in its [next]
    map with a truthy value) is a job A with a [next] map, [previous]
    is A's id. *)
Theorem C2_previous_is_the_first_upstream_job
    plan (h h' : gmap loc JobSpec) (compiled : CompiledExecutionPlan) (b : JobSpec) :
  compile plan h = (h', inr compiled) →
  b ∈ deref h' (jobs plan) →
  ∃ node,
    obj_get (id_of b) (compiled_jobs compiled) = Some node ∧
    node_id node = id_of b ∧
    node_previous node = findUpstream (deref h' (jobs plan)) (id_of b) ∧
    ∀ pre a post entries,
      deref h' (jobs plan) = (pre ++ a :: post)%list →
      Forall (λ j, mentions j (id_of b) = false) pre →
      next a = Some (NextMap entries) →
      next_truthy_at entries (id_of b) = true →
      node_previous node = Some (id_of a).
Proof.
  intros Hc Hb.
  assert (∀ j, j ∈ deref h' (jobs plan) → id j = Some (id_of j)) as Hids.
  { intros j Hj. apply (compiled_ids_truthy plan h). by rewrite Hc. }
  revert Hc. unfold Compiler.compile.
  destruct (ensure_ids (jobs plan) h) as [n h1]. intros [= -> Hc].
  unfold Compiler.compile_loaded in Hc.
  destruct (compile_jobs (deref h' (jobs plan)) (deref h' (jobs plan))
              (mkCompiledExecutionPlan [] (start plan), []))
    as [e|[np errs]] eqn:Hjobs; [done|].
  destruct errs; [|done]. injection Hc as ->.
  destruct (compile_jobs_nodes _ _ _ _ _ _ Hjobs) as [Hinv Hsome]; [done|].
  destruct (Hsome (id_of b)) as [node Hnode]; [right; by exists b|].
  destruct (Hinv _ _ Hnode) as [Hid Hprev].
  exists node. split; [done|]. split; [done|]. split; [done|].
  intros pre a post entries Hsplit Hpre Hnext Ht.
  rewrite Hprev, Hsplit.
  rewrite (findUpstream_first_map pre a post entries) by done.
  apply Hids. rewrite Hsplit. apply elem_of_app. right. by apply elem_of_cons; left.
Qed.

End Facts.

(** C2 as stated fails when two jobs point at the same job: the node gets
    the id of the first, whatever the second says. *)
Lemma C2_counterexample :
  references (job (Some "a2") (Some to_b)) "b" ∧
  match compile string sample_compileFunction three_jobs two_parents_store with
  | (h', inr compiled) =>
      deref h' [1%nat; 2%nat] = [job (Some "a2") (Some to_b); job (Some "b") None] ∧
      node_previous <$> obj_get "b" (compiled_jobs compiled) = Some (Some "a1") ∧
      Some "a1" ≠ Compiler.id (job (Some "a2") (Some to_b))
  | _ => False
  end.
Proof. split; [by eexists|]. by vm_compute. Qed.

(** A [next] given as a string: [findUpstream] returns that string, the
    id of the job looked for, where the map case returns the id of the
    job that points at it. *)
Example string_next_previous :
  match compile string sample_compileFunction two_jobs string_next_store with
  | (_, inr compiled) =>
      node_previous <$> obj_get "b" (compiled_jobs compiled) = Some (Some "b")
  | _ => False
  end.
Proof. by vm_compute. Qed.

Lemma C2_previous_witness :
  ∃ node : CompiledJobNode string,
    obj_get "b" (compiled_jobs two_parents_compiled) = Some node ∧
    node_previous node = Some "a1".
Proof.
  assert (compile string sample_compileFunction three_jobs two_parents_store =
          (two_parents_store, inr two_parents_compiled)) as E
    by (vm_compute; reflexivity).
  destruct (C2_previous_is_the_first_upstream_job string sample_compileFunction
              three_jobs two_parents_store two_parents_store two_parents_compiled
              (job (Some "b") None) E)
    as (node & Hnode & _ & _ & Hfirst).
  - apply list_elem_of_In. vm_compute. right; right; left; reflexivity.
  - exists node. split; [exact Hnode|].
    exact (Hfirst [] (job (Some "a1") (Some to_b))
             [job (Some "a2") (Some to_b); job (Some "b") None]
             [("b", EBool true)] eq_refl (Forall_nil_2 _) eq_refl eq_refl).
Defined.



Lemma C10_writes_ids_witness :
  (compile string sample_compileFunction three_jobs anonymous_store).1 !! 2%nat =
  Some (job (Some "job-2") None).
Proof.
  pose proof (C10_compile_writes_ids_on_the_input string sample_compileFunction
                three_jobs anonymous_store) as (_ & _ & H & _).
  apply (H [0%nat; 1%nat] 2%nat [] (job None None));
    [reflexivity | | | reflexivity | reflexivity].
  - apply (bool_decide_unpack _). vm_compute. exact I.
  - apply (bool_decide_unpack _). vm_compute. exact I.
Defined.

(** C6 at a plan with three conditions that do not parse, in two jobs:
    one error, the three messages two line feeds apart.  And at a plan
    with one more condition, on which the condition compiler throws
    [null]: the compiler throws the TypeError of the catch block, and none
    of the messages collected before it. *)
Lemma C6_collected_witness :
  (compile string sample_compileFunction three_jobs broken_store).2 =
  inl (Error ("Failed to compile edge condition a->b (Unexpected token '!')"
              +:+ String "010"%char (String "010"%char
              "Failed to compile edge condition a->d (Unexpected end of input)")
              +:+ String "010"%char (String "010"%char
              "Failed to compile edge condition b->c (Unexpected token '!')"))) ∧
  (compile string sample_compileFunction three_jobs panic_store).2 =
  inl (TypeError "Cannot read properties of null (reading 'message')").
Proof.
  pose proof (C6_edge_errors_are_collected string sample_compileFunction)
    as [_ H].
  split.
  - exact (H three_jobs broken_store).
  - exact (H three_jobs panic_store).
Defined.

End CompilerFacts.

(** ** The worker's command line *)

Module CliFacts.
Import Cli Samples.

Lemma setArg_flag {A} (v : A) envValue defaultValue :
  setArg (Some v) envValue defaultValue = Some v.
Proof. done. Qed.

Lemma setArg_variable {A} (v : A) defaultValue :
  setArg None (Some v) defaultValue = Some v.
Proof. done. Qed.

Lemma setArg_default {A} (defaultValue : option A) :
  setArg None None defaultValue = defaultValue.
Proof. done. Qed.

Lemma if_set_nonempty {A} (f : string → A) text :
  text ≠ EmptyString → if_set (Some text) f = Some (f text).
Proof.
  intros Hne. unfold if_set.
  destruct (String.eqb_spec text EmptyString); [done|done].
Qed.

(** Case on the flag the hypothesis speaks of. *)
Ltac on_flag :=
  match goal with
  | H : _ <$> ?x = _ |- _ => destruct x; simplify_eq/=
  end.

(** C9, as the code has it.  For each of the eleven settings: a flag
    given on the command line is the value; without a flag, a variable
    that is set is read (as text, through [parseInt], or split on commas)
    and is the value, provided it is not the empty string where it is
    read through [parseInt] or [split]; with neither, and also with an
    empty variable of those five settings, the value is the built-in
    default: '1/10', 5, 500, 300 and ['configuration', 'response'] among
    them.  The default back-off splits on '/' into 1000 and 10000 ms. *)
Theorem C9_flag_then_variable_then_default (s : Setting) (p : Parser) (e : Env) :
  (∀ v, cli_value s p = Some v → arg_value s (args p e) = Some v) ∧
  (∀ text,
     cli_value s p = None → env_variable s e = Some text →
     (converted s = true → text ≠ EmptyString) →
     arg_value s (args p e) = Some (read_variable s text)) ∧
  (cli_value s p = None → env_variable s e = None →
     arg_value s (args p e) = listed_default s) ∧
  (cli_value s p = None → converted s = true →
     env_variable s e = Some EmptyString →
     arg_value s (args p e) = listed_default s) ∧
  listed_default SBackoff = Some (VStr "1/10") ∧
  listed_default SCapacity = Some (VNum (Int 5)) ∧
  listed_default SRunMemory = Some (VNum (Int 500)) ∧
  listed_default SMaxRunDuration = Some (VNum (Int 300)) ∧
  listed_default SStateProps = Some (VList ["configuration"; "response"]) ∧
  backoff_bounds "1/10" = (Some (Int 1000), Some (Int 10000)).
Proof.
  split; [|split; [|split; [|split]]].
  - intros v Hv. destruct s; simpl in *; on_flag; done.
  - intros text Hcli Henv Hne. destruct s; simpl in *; on_flag;
      rewrite Henv; unfold env_int; rewrite ?if_set_nonempty by auto; done.
  - intros Hcli Henv. destruct s; simpl in *; on_flag; rewrite Henv; done.
  - intros Hcli Hconv Henv. destruct s; simpl in *; try done; on_flag;
      rewrite Henv; done.
  - repeat split; by vm_compute.
Qed.

Lemma C9_precedence_witness :
  capacity (args no_flags capacity_ten) = Some (Int 10).
Proof.
  pose proof (C9_flag_then_variable_then_default SCapacity no_flags capacity_ten)
    as (_ & H & _).
  assert (VNum <$> capacity (args no_flags capacity_ten) = Some (VNum (Int 10))) as E.
  { apply (H "10"); [reflexivity | reflexivity | discriminate]. }
  destruct (capacity (args no_flags capacity_ten)) as [n|]; [|discriminate E].
  injection E as ->. reflexivity.
Defined.

(** C9 as stated fails on an empty variable, however "set" is read: for
    the capacity the empty WORKER_CAPACITY yields to the default, for the
    back-off the empty WORKER_BACKOFF overrides it. *)
Lemma C9_counterexample :
  WORKER_CAPACITY empty_variables = Some EmptyString ∧
  WORKER_BACKOFF empty_variables = Some EmptyString ∧
  capacity (args no_flags empty_variables) = Some (Int 5) ∧
  backoff (args no_flags empty_variables) = Some EmptyString.
Proof. by vm_compute. Qed.

End CliFacts.

(** ** JSON round trips and the final state *)

Module JsonFacts.
Import Js Runner JsonData Samples.

(** Induction on a value, with the hypothesis for every item of an array
    and every member of an object. *)
Lemma JsValue_nested_ind (P : JsValue → Prop) :
  P JUndefined → P JNull → (∀ b, P (JBool b)) → (∀ z, P (JNum z)) → P JNaN →
  (∀ s, P (JStr s)) →
  (∀ items, Forall P items → P (JArr items)) →
  (∀ fields, Forall (λ kv, P kv.2) fields → P (JObj fields)) →
  (∀ l, P (JFun l)) →
  ∀ v, P v.
Proof.
  intros HU HN HB HZ HNaN HS HA HO HF.
  fix IH 1. intros [| |b|z| |s|items|fields|l];
    [exact HU|exact HN|apply HB|apply HZ|exact HNaN|apply HS| | |apply HF].
  - apply HA. revert items. fix IHl 1. intros [|x xs]; constructor.
    + apply IH.
    + apply IHl.
  - apply HO. revert fields. fix IHl 1. intros [|[k x] xs]; constructor.
    + apply IH.
    + apply IHl.
Qed.

(** A member of plain data is plain data. *)
Lemma plain_member fields k x :
  plain (JObj fields) = true → obj_get k fields = Some x → plain x = true.
Proof.
  induction fields as [|[k' x'] fields IH]; [done|].
  cbn [plain]. intros Hall. apply andb_prop in Hall as [H1 H2].
  cbn [obj_get]. destruct (String.eqb k k').
  - by intros [= <-].
  - by apply IH.
Qed.

Lemma plain_calls_toJSON v : plain v = true → calls_toJSON v = false.
Proof.
  destruct v as [| |b|z| |s|items|fields|l]; try done.
  intros Hp. unfold calls_toJSON.
  destruct (obj_get "toJSON" fields) as [x|] eqn:E; [|done].
  pose proof (plain_member _ _ _ Hp E) as Hx. by destruct x.
Qed.

Lemma plain_serialisable v : plain v = true → serialisable v = true.
Proof.
  intros Hp. pose proof (plain_calls_toJSON v Hp) as Hc.
  destruct v; try done; unfold serialisable; by rewrite Hc.
Qed.

(** What comes back from a round trip is plain data. *)
Lemma json_plain v : plain (json v) = true.
Proof.
  induction v as [| |b|z| |s|items IH|fields IH|l] using JsValue_nested_ind;
    try done.
  - simpl. induction IH as [|x xs Hx _ IHxs]; simpl; [done|].
    by rewrite Hx, IHxs.
  - cbn [json]. destruct (calls_toJSON (JObj fields)); [done|].
    cbn [plain]. induction IH as [|[k x] xs Hx _ IHxs]; [done|].
    destruct (serialisable x); [|done]. simpl in Hx. by rewrite Hx, IHxs.
Qed.

Lemma json_serialisable v : serialisable (json v) = true.
Proof. apply plain_serialisable, json_plain. Qed.

(** Plain data comes back as it went. *)
Lemma json_of_plain v : plain v = true → json v = v.
Proof.
  induction v as [| |b|z| |s|items IH|fields IH|l] using JsValue_nested_ind;
    try done.
  - simpl. intros Hall. f_equal.
    induction IH as [|x xs Hx _ IHxs]; simpl in *; [done|].
    apply andb_prop in Hall as [H1 H2]. by rewrite Hx, IHxs.
  - intros Hall. cbn [json]. rewrite (plain_calls_toJSON _ Hall).
    cbn [plain] in Hall. f_equal.
    induction IH as [|[k x] xs Hx _ IHxs]; [done|].
    apply andb_prop in Hall as [H1 H2].
    rewrite (plain_serialisable x H1). simpl in Hx. by rewrite Hx, IHxs.
Qed.

Lemma json_idempotent v : json (json v) = json v.
Proof. apply json_of_plain, json_plain. Qed.



(** With no [hasOwnProperty] member of its own in the way, [assignKeys]
    copies the members the source owns. *)
Lemma assignKeys_cons source target k keys :
  own source "hasOwnProperty" = None →
  assignKeys source target (k :: keys) =
  assignKeys source (match own source k with
                     | Some v => obj_assign k v target
                     | None => target
                     end) keys.
Proof.
  intros H. cbn [assignKeys]. unfold hasOwnProperty. rewrite H.
  destruct (own source k) as [v|] eqn:E.
  - rewrite bool_decide_eq_true_2; [done|by eexists].
  - rewrite bool_decide_eq_false_2; [done|]. by intros [v Hv].
Qed.

(** A function in that place answers [undefined] to every key. *)
Lemma assignKeys_function source target keys l :
  own source "hasOwnProperty" = Some (JFun l) →
  assignKeys source target keys = inr target.
Proof.
  intros H. induction keys as [|k keys IH]; [done|].
  cbn [assignKeys]. unfold hasOwnProperty. by rewrite H.
Qed.

(** Anything else in that place cannot be called. *)
Lemma assignKeys_shadowed source target k keys :
  shadowed source = true →
  assignKeys source target (k :: keys) =
  inl (TypeError "source.hasOwnProperty is not a function").
Proof.
  unfold shadowed. cbn [assignKeys]. unfold hasOwnProperty.
  by destruct (own source "hasOwnProperty") as [[]|].
Qed.

Lemma assignKeys_outcome source keys :
  match assignKeys source [] keys with
  | inl _ => shadowed source = true
  | inr _ => shadowed source = false ∨ keys = []
  end.
Proof.
  destruct keys as [|k keys]; [by right|].
  unfold shadowed.
  destruct (own source "hasOwnProperty") as [m|] eqn:E.
  - destruct m;
      try (rewrite assignKeys_shadowed; [done|unfold shadowed; by rewrite E]).
    rewrite (assignKeys_function _ _ _ _ E). by left.
  - destruct (assignKeys source [] (k :: keys)) as [e|t] eqn:Ea; [|by left].
    exfalso. revert Ea. generalize (@nil (string * JsValue)).
    induction (k :: keys) as [|k' ks IH]; intros t; [done|].
    rewrite (assignKeys_cons _ _ _ _ E). apply IH.
Qed.

(** When [prepareFinalState] throws: outside strict mode for a truthy
    result that JSON cannot carry at the top (a function, or an object
    whose [toJSON] member is a function), in strict mode for a truthy
    result with a [hasOwnProperty] member of its own that is no function.
    A falsy result is handed back as it is, a truthy one as plain data, and
    plain data outside strict mode unchanged. *)
Theorem prepareFinalState_outcome (opts : Options) (s : JsValue) :
  match prepareFinalState opts s with
  | inr final =>
      (truthy s = false → final = s) ∧
      (truthy s = true → plain final = true) ∧
      (strict opts = false → plain s = true → final = s)
  | inl e =>
      truthy s = true ∧
      if strict opts
      then shadowed s = true ∧ e = TypeError "source.hasOwnProperty is not a function"
      else ((∃ l, s = JFun l) ∨
            (∃ fields l, s = JObj fields ∧ obj_get "toJSON" fields = Some (JFun l))) ∧
           e = SyntaxError "Unexpected token u in JSON at position 0"
  end ∧
  (truthy s = true →
   (if strict opts then shadowed s = true
    else (∃ l, s = JFun l) ∨
         (∃ fields l, s = JObj fields ∧ obj_get "toJSON" fields = Some (JFun l))) →
   ∃ e, prepareFinalState opts s = inl e).
Proof.
  split.
  - unfold prepareFinalState, json_roundtrip.
    destruct (truthy s) eqn:Ht; [|done].
    destruct (strict opts) eqn:Hs.
    + pose proof (assignKeys_outcome s strict_keys) as Ha. unfold strict_keys in Ha.
      destruct (assignKeys s [] ["data"; "error"; "references"]) as [e|t] eqn:E.
      * split; [done|]. split; [done|].
        rewrite assignKeys_shadowed in E by done. by injection E as <-.
      * destruct (serialisable (JObj t)) eqn:Hser.
        -- split; [done|]. split; [intros _; apply json_plain|done].
        -- exfalso. destruct Ha as [Ha|Ha]; [|done].
           unfold shadowed in Ha.
           destruct (own s "hasOwnProperty") as [m|] eqn:Eo.
           ++ destruct m; try done.
              rewrite (assignKeys_function _ _ _ _ Eo) in E. by injection E as <-.
           ++ rewrite !(assignKeys_cons _ _ _ _ Eo) in E. cbn [assignKeys] in E.
              injection E as <-.
              destruct (own s "data"), (own s "error"), (own s "references");
                discriminate Hser.
    + destruct (serialisable s) eqn:Hser.
      * split; [done|]. split; [intros _; apply json_plain|].
        intros _ Hp. by apply json_of_plain.
      * split; [done|]. split; [|done].
        destruct s as [| |b|z| |t|items|fields|l]; try done; [|left; by eexists].
        right. exists fields. unfold serialisable, calls_toJSON in Hser.
        destruct (obj_get "toJSON" fields) as [[]|]; try done. by eexists.
  - intros Ht Hwhy. unfold prepareFinalState, json_roundtrip. rewrite Ht.
    destruct (strict opts).
    + rewrite assignKeys_shadowed by done. by eexists.
    + assert (serialisable s = false) as ->; [|by eexists].
      destruct Hwhy as [[l ->]|(fields & l & -> & Hf)]; [done|].
      unfold serialisable, calls_toJSON. by rewrite Hf.
Qed.

Lemma prepareFinalState_outcome_witness :
  (∃ e, prepareFinalState default_options (JFun "f") = inl e) ∧
  (∃ e, prepareFinalState strict_options
          (JObj [("data", JNum 1); ("hasOwnProperty", JBool true)]) = inl e).
Proof.
  split.
  - apply (proj2 (prepareFinalState_outcome default_options (JFun "f")));
      [reflexivity|]. left. exists "f". reflexivity.
  - exact (proj2 (prepareFinalState_outcome strict_options
                    (JObj [("data", JNum 1); ("hasOwnProperty", JBool true)]))
             eq_refl eq_refl).
Defined.

End JsonFacts.

(** ** More on the runner *)

Module RunnerMore.
Import Js Runner JsonData Samples.

(** In strict mode the final state of a truthy result is an object with
    no member but [data], [error] and [references], each the JSON copy of
    the result's own member of that name when it has one that JSON can
    carry.  This is so when the result has no [hasOwnProperty] member of
    its own; if it has one that is a function the final state is the empty
    object, and if it has one that is no function the step throws. *)
Theorem strict_final_state_keeps_three_keys (opts : Options) (s : JsValue) :
  strict opts = true → truthy s = true →
  match own s "hasOwnProperty" with
  | None =>
      ∃ fs,
        prepareFinalState opts s = inr (JObj fs) ∧
        (∀ k, k ∈ fs.*1 → k ∈ strict_keys) ∧
        (∀ k, k ∈ strict_keys →
           obj_get k fs = match own s k with
                          | Some v => if serialisable v then Some (json v) else None
                          | None => None
                          end)
  | Some (JFun _) => prepareFinalState opts s = inr (JObj [])
  | Some _ =>
      prepareFinalState opts s =
      inl (TypeError "source.hasOwnProperty is not a function")
  end.
Proof.
  intros Hs Ht.
  destruct (own s "hasOwnProperty") as [m|] eqn:Eo.
  - unfold prepareFinalState. rewrite Hs, Ht.
    destruct m;
      try (rewrite JsonFacts.assignKeys_shadowed;
           [done|unfold shadowed; by rewrite Eo]).
    by rewrite (JsonFacts.assignKeys_function _ _ _ _ Eo).
  - unfold prepareFinalState, strict_keys. rewrite Hs, Ht.
    rewrite !(JsonFacts.assignKeys_cons _ _ _ _ Eo). cbn [assignKeys].
    unfold json_roundtrip.
    destruct (own s "data") as [d|] eqn:Ed;
      destruct (own s "error") as [e|] eqn:Ee;
      destruct (own s "references") as [r|] eqn:Er; simpl;
      repeat match goal with
             | |- context [serialisable ?v] => destruct (serialisable v) eqn:?
             end;
      eexists; (split; [reflexivity|]); simpl;
      (split;
       [intros k Hk; repeat (apply elem_of_cons in Hk as [->|Hk]);
          rewrite ?elem_of_cons; try (by apply elem_of_nil in Hk); tauto
       |intros k Hk; repeat (apply elem_of_cons in Hk as [->|Hk]);
          try (by apply elem_of_nil in Hk);
          rewrite ?Ed, ?Ee, ?Er; simpl;
          repeat match goal with
                 | H : serialisable _ = _ |- _ => rewrite H
                 end; reflexivity]).
Qed.

Lemma strict_final_state_witness :
  ∃ fs,
    prepareFinalState strict_options state_with_configuration = inr (JObj fs) ∧
    obj_get "data" fs = Some (JObj [("n", JNum 7)]) ∧
    ∀ k, k ∈ fs.*1 → k ∈ strict_keys.
Proof.
  destruct (strict_final_state_keeps_three_keys strict_options
              state_with_configuration eq_refl eq_refl) as (fs & Hfs & Hkeys & Hget).
  exists fs. split; [exact Hfs|]. split; [|exact Hkeys].
  apply (Hget "data"). apply elem_of_cons. left. reflexivity.
Defined.

Section Facts.

Variable W : Type.
Variable loadModule : string → Settled (JobModule W).

Local Abbreviation execute := (Runner.execute W loadModule).
Local Abbreviation run := (Runner.run W loadModule).
Local Abbreviation pipeline := (Runner.pipeline W loadModule).
Local Abbreviation prepareJob := (Runner.prepareJob W loadModule).

(** The throw that ends the executor, if one does: the one raised while
    the catch block reports the reason it was handed. *)
Lemma pipeline_settles finish expression s opts job sched w :
  (∀ v e, finish v = inl e → report e = None) →
  prepareJob expression opts = Fulfilled job →
  let r := pipeline finish expression s opts sched w in
  (promise W r = Rejected (Error "timeout") ∨
   promise W r = Rejected (Error "runtime exception") ∨
   ∃ v, promise W r = Fulfilled v) ∧
  executor_rejection W r =
    match (reducer_of W job opts s w).1 with
    | Rejected e => report e
    | _ => None
    end.
Proof.
  intros Hfinish Hjob. unfold Runner.pipeline. rewrite Hjob.
  destruct (reducer_of W job opts s w) as [chain w'].
  destruct sched, chain as [v|e|]; simpl; eauto;
    try (destruct (finish v) as [e|final] eqn:E; simpl; eauto;
         unfold catch; rewrite (Hfinish _ _ E); simpl; eauto);
    unfold catch; destruct (report e); simpl; eauto.
Qed.

(** Which reasons the catch block fails to report. *)
Lemma report_cases (e : Thrown) :
  (report e = None ∧ unreportable e = false) ∨
  (∃ t, report e = Some t ∧ unreportable e = true).
Proof.
  destruct e as [m|m|m|v]; try (by left).
  destruct v as [| |b|z| |t|items|fields|l]; try (by left);
    try (right; by eexists).
  - unfold report, unreportable. cbn [to_string_throws].
    destruct (existsb to_string_throws items); [right; by eexists|by left].
  - unfold report, unreportable.
    destruct (obj_get "toString" fields) as [member|]; [|by left].
    destruct member; simpl; try (by left); try (right; by eexists).
    + destruct b; [right; by eexists|by left].
    + destruct (z =? 0)%Z; [by left|right; by eexists].
    + destruct (String.eqb s EmptyString); [by left|right; by eexists].
Qed.

(** Once the job is prepared, the promise of either entry point always
    settles, whatever the event loop does first: with the final state,
    with 'timeout' or with 'runtime exception'; nothing else is ever
    delivered.  The executor itself fails in one case only: the chain
    rejects with a reason the catch block cannot report ([null],
    [undefined], a value whose [toString] cannot be called). *)
Theorem prepared_run_always_settles
    (expression : Expression W) (s : JsValue) (opts : Options) (job : JobModule W)
    (sched : Schedule) (w : W) :
  prepareJob expression opts = Fulfilled job →
  ((promise W (execute expression s opts sched w) = Rejected (Error "timeout") ∨
    promise W (execute expression s opts sched w) = Rejected (Error "runtime exception") ∨
    ∃ v, promise W (execute expression s opts sched w) = Fulfilled v) ∧
   (executor_rejection W (execute expression s opts sched w) = None ↔
    ∀ e, (reducer_of W job opts s w).1 = Rejected e → unreportable e = false)) ∧
  ((promise W (run expression s opts sched w) = Rejected (Error "timeout") ∨
    promise W (run expression s opts sched w) = Rejected (Error "runtime exception") ∨
    ∃ v, promise W (run expression s opts sched w) = Fulfilled v) ∧
   (executor_rejection W (run expression s opts sched w) = None ↔
    ∀ e, (reducer_of W job opts (or_default s defaultState) w).1 = Rejected e →
         unreportable e = false)).
Proof.
  intros Hjob.
  assert (∀ chain : Settled JsValue,
            match chain with Rejected e => report e | _ => None end = None ↔
            ∀ e, chain = Rejected e → unreportable e = false) as Hiff.
  { intros [v|e|]; [by split|..|by split].
    destruct (report_cases e) as [[-> Hu]|(t & -> & Hu)]; split; try done.
    - by intros _ e' [= <-].
    - intros H. specialize (H e eq_refl). congruence. }
  split.
  - destruct (pipeline_settles (prepareFinalState opts) expression s opts job sched w)
      as [H1 H2]; [|done|].
    { intros v e. apply RunnerFacts.prepareFinalState_reported. }
    split; [exact H1|]. unfold Runner.execute. rewrite H2. apply Hiff.
  - destruct (pipeline_settles inr expression (or_default s defaultState) opts job
                sched w) as [H1 H2]; [done|done|].
    split; [exact H1|]. unfold Runner.run. rewrite H2. apply Hiff.
Qed.

Lemma pipeline_rejected finish expression s opts job e w :
  prepareJob expression opts = Fulfilled job →
  (reducer_of W job opts s w).1 = Rejected e →
  let r := pipeline finish expression s opts ChainFirst w in
  promise W r =
    Rejected (Error (if unreportable e then "timeout" else "runtime exception")) ∧
  timers W r = [(timeout_of opts, Fired)] ∧
  (executor_rejection W r = None ↔ unreportable e = false).
Proof.
  intros Hjob Hchain. unfold Runner.pipeline.
  rewrite Hjob. destruct (reducer_of W job opts s w) as [chain w'].
  simpl in Hchain. subst chain. simpl. unfold catch.
  by destruct (report_cases e) as [[-> ->]|(t & -> & ->)].
Qed.

(** A chain that rejects before the timer: the caller never sees the
    reason.  When the catch block can report it, the caller gets 'runtime
    exception' in its place, and the timer, which nothing cleared, fires
    later without effect.  When it cannot ([null], [undefined], a
    [toString] that cannot be called), the catch block itself throws,
    nothing rejects the promise then, and the caller gets 'timeout' once
    the timer fires. *)
Theorem rejection_reason_is_replaced
    (expression : Expression W) (s : JsValue) (opts : Options) (job : JobModule W)
    (w : W) :
  prepareJob expression opts = Fulfilled job →
  (∀ e, (reducer_of W job opts s w).1 = Rejected e →
     promise W (execute expression s opts ChainFirst w) =
       Rejected (Error (if unreportable e then "timeout" else "runtime exception")) ∧
     timers W (execute expression s opts ChainFirst w) = [(timeout_of opts, Fired)] ∧
     (executor_rejection W (execute expression s opts ChainFirst w) = None ↔
      unreportable e = false)) ∧
  (∀ e, (reducer_of W job opts (or_default s defaultState) w).1 = Rejected e →
     promise W (run expression s opts ChainFirst w) =
       Rejected (Error (if unreportable e then "timeout" else "runtime exception")) ∧
     timers W (run expression s opts ChainFirst w) = [(timeout_of opts, Fired)] ∧
     (executor_rejection W (run expression s opts ChainFirst w) = None ↔
      unreportable e = false)).
Proof.
  intros Hjob. split; intros e He.
  - by apply pipeline_rejected with (job := job).
  - by apply pipeline_rejected with (job := job).
Qed.

(** [run] hands over the result of the chain as it is, and starts from
    its default state when it is given none; [execute] does the same from
    the same state whenever the result is plain data or falsy and strict
    mode is off: then the two entry points behave alike in every respect. *)
Theorem execute_agrees_with_run
    (expression : Expression W) (s : JsValue) (opts : Options)
    (sched : Schedule) (w : W) :
  strict opts = false →
  match prepareJob expression opts with
  | Fulfilled job =>
      match (reducer_of W job opts (or_default s defaultState) w).1 with
      | Fulfilled v => plain v = true ∨ truthy v = false
      | _ => True
      end
  | _ => True
  end →
  execute expression (or_default s defaultState) opts sched w =
  run expression s opts sched w.
Proof.
  intros Hs. unfold Runner.execute, Runner.run, Runner.pipeline.
  destruct (prepareJob expression opts) as [job|e|]; [|done|done].
  destruct (reducer_of W job opts (or_default s defaultState) w) as [chain w']. simpl.
  destruct chain as [v|e|]; [|done|done].
  intros Hv.
  assert (prepareFinalState opts v = inr v) as Hfin.
  { unfold prepareFinalState, json_roundtrip. rewrite Hs.
    destruct (truthy v) eqn:Ht; [|done].
    destruct Hv as [Hp|?]; [|done].
    by rewrite (JsonFacts.plain_serialisable v Hp), JsonFacts.json_of_plain. }
  destruct sched; simpl; by rewrite Hfin.
Qed.

(** A job that cannot be prepared (an operation list under
    [forceSandbox], a module that fails to load or never loads) leaves
    the promise of either entry point unsettled for good: no operation
    runs, no timer is set, and the error only rejects the executor's own
    promise. *)
Theorem unprepared_run_never_settles
    (expression : Expression W) (s : JsValue) (opts : Options)
    (sched : Schedule) (w : W) :
  (∀ job, prepareJob expression opts ≠ Fulfilled job) →
  execute expression s opts sched w =
    mkRun Pending []
      (match prepareJob expression opts with Rejected e => Some e | _ => None end) w ∧
  run expression s opts sched w =
    mkRun Pending []
      (match prepareJob expression opts with Rejected e => Some e | _ => None end) w.
Proof.
  intros Hno. unfold Runner.execute, Runner.run, Runner.pipeline.
  destruct (prepareJob expression opts) as [job|e|]; [|done|done].
  by destruct (Hno job).
Qed.

Lemma then_ext_r {A B} (p : Async W A) (f g : A → Async W B) w :
  (∀ a w', f a w' = g a w') → then_ W p f w = then_ W p g w.
Proof. intros H. unfold then_. destruct (p w) as [[a|e|] w']; auto. Qed.

(** With [immutableState], an operation is only ever handed plain data:
    two lists of operations that agree on plain data make the same
    chain, whatever they do elsewhere. *)
Theorem immutable_chain_sees_plain_data (ops ops' : list (Operation W)) :
  Forall2 (λ op op', ∀ s w, plain s = true → op s w = op' s w) ops ops' →
  ∀ s w,
    defaultExecute W (map (λ op, wrapOperation W op true) ops) s w =
    defaultExecute W (map (λ op, wrapOperation W op true) ops') s w.
Proof.
  induction 1 as [|op op' ops ops' Hop _ IH]; intros s w; [done|].
  cbn [map]. rewrite !RunnerFacts.defaultExecute_cons.
  assert (wrapOperation W op true s w = wrapOperation W op' true s w) as Hw.
  { unfold wrapOperation, clone, json_roundtrip.
    destruct (serialisable s); [|done]. apply Hop, JsonFacts.json_plain. }
  etrans; [by apply RunnerFacts.then_ext|]. by apply then_ext_r.
Qed.

End Facts.

(** An operation that rejects with [null]: the catch block throws while
    it reports the reason, and the caller gets 'timeout'. *)
Lemma prepared_run_settles_witness :
  promise _ (execute (list string) no_modules (OperationList [add_one; reject_null])
               (JNum 1) default_options ChainFirst []) = Rejected (Error "timeout") ∧
  executor_rejection _
    (execute (list string) no_modules (OperationList [add_one; reject_null])
       (JNum 1) default_options ChainFirst []) ≠ None.
Proof.
  pose proof (prepared_run_always_settles (list string) no_modules
                (OperationList [add_one; reject_null]) (JNum 1) default_options
                (mkJobModule [add_one; reject_null] None) ChainFirst [] eq_refl)
    as [[H1 H2] _].
  split.
  - destruct H1 as [H|[H|[v H]]]; [exact H|discriminate H|discriminate H].
  - intros Hnone.
    discriminate (proj1 H2 Hnone (Raised JNull) eq_refl).
Defined.

Lemma unprepared_run_witness :
  execute (list string) no_modules (Source "fn(s => s") (JNum 1)
          default_options ChainFirst [] =
  mkRun Pending [] (Some (Error "module not found")) [].
Proof.
  apply (unprepared_run_never_settles (list string) no_modules
           (Source "fn(s => s") (JNum 1) default_options ChainFirst []).
  intros job. discriminate.
Defined.

Lemma rejection_reason_witness :
  promise _ (run (list string) no_modules (OperationList [add_one; fail_with "boom"])
               (JNum 1) default_options ChainFirst []) =
    Rejected (Error "runtime exception") ∧
  promise _ (run (list string) no_modules (OperationList [add_one; reject_null])
               (JNum 1) default_options ChainFirst []) =
    Rejected (Error "timeout").
Proof.
  split.
  - exact (proj1 (proj2
             (rejection_reason_is_replaced (list string) no_modules
                (OperationList [add_one; fail_with "boom"]) (JNum 1) default_options
                (mkJobModule [add_one; fail_with "boom"] None) [] eq_refl)
             (Error "boom") eq_refl)).
  - exact (proj1 (proj2
             (rejection_reason_is_replaced (list string) no_modules
                (OperationList [add_one; reject_null]) (JNum 1) default_options
                (mkJobModule [add_one; reject_null] None) [] eq_refl)
             (Raised JNull) eq_refl)).
Defined.

(** Started without a state, [run] works on its default state. *)
Lemma execute_agrees_with_run_witness :
  execute (list string) no_modules (OperationList [lenient])
          (JObj [("data", JObj []); ("configuration", JObj [])])
          default_options ChainFirst [] =
  run (list string) no_modules (OperationList [lenient]) JUndefined
      default_options ChainFirst [].
Proof.
  apply (execute_agrees_with_run (list string) no_modules (OperationList [lenient])
           JUndefined default_options ChainFirst []); [reflexivity|].
  simpl. left. reflexivity.
Defined.

Lemma immutable_chain_witness :
  defaultExecute (list string) [wrapOperation _ picky true] (JArr [JFun "f"]) [] =
  defaultExecute (list string) [wrapOperation _ lenient true] (JArr [JFun "f"]) [].
Proof.
  apply (immutable_chain_sees_plain_data (list string) [picky] [lenient]).
  repeat constructor. intros s w Hs. unfold picky, lenient. rewrite Hs. reflexivity.
Defined.

End RunnerMore.

(** ** More on the execution context *)

Module AttemptMore.
Import Js Attempt AttemptTrace Samples.

Lemma append_inj_prefix (p s1 s2 : string) : p +:+ s1 = p +:+ s2 → s1 = s2.
Proof. induction p as [|c p IH]; simpl; [done|]. intros [= H]. by apply IH. Qed.

Lemma sample_uuid_inj m n : sample_uuid m = sample_uuid n → m = n.
Proof.
  unfold sample_uuid. intros H%append_inj_prefix. by apply (inj pretty).
Qed.

Section Facts.

Variable randomUUID : nat → string.
Variable stringify : JsValue → string.

Local Abbreviation step := (Attempt.step randomUUID stringify).
Local Abbreviation run := (Attempt.run randomUUID stringify).
Local Abbreviation onJobComplete := (Attempt.onJobComplete randomUUID stringify).

Lemma run_app evs1 evs2 ctx : run (evs1 ++ evs2) ctx = run evs2 (run evs1 ctx).
Proof. unfold Attempt.run. apply fold_left_app. Qed.

Lemma quiet_step ctx ev :
  starts_or_completes ev = false →
  state (step ctx ev) = state ctx ∧ draws (step ctx ev) = draws ctx.
Proof.
  unfold Attempt.step. destruct ev; try done; simpl.
  unfold onWorkflowComplete. by destruct (dataclips (state ctx)).
Qed.

Lemma quiet_run evs ctx :
  quiet evs = true →
  state (run evs ctx) = state ctx ∧ draws (run evs ctx) = draws ctx.
Proof.
  revert ctx. induction evs as [|ev evs IH]; intros ctx; [done|].
  simpl. intros [Hev Hq]%andb_prop. apply negb_true_iff in Hev.
  destruct (quiet_step ctx ev Hev) as [Hs Hd].
  destruct (IH (step ctx ev) Hq) as [Hs' Hd']. split; congruence.
Qed.

Lemma last_pushed_snoc (ms : list Message) m : last (ms ++ [m]) = Some m.
Proof. apply last_snoc. Qed.

(** The RUN_COMPLETE of a job carries the run id drawn when the job
    started and the id of that job, whatever logs or workflow events came
    in between, and leaves no run active; a job-complete that follows
    another one without a job-start in between reports neither a run id
    nor a job id. *)
Theorem run_complete_pairs_with_its_start
    (ctx : Context) (mid : list Event) (s : JsValue) :
  quiet mid = true →
  (∀ j,
     let c := run (JobStart j :: mid ++ [JobComplete s]) ctx in
     last (pushed (channel c)) =
       Some (RUN_COMPLETE (Some (randomUUID (draws ctx))) (Some j)
               (randomUUID (S (draws ctx))) (stringify s)) ∧
     activeRun (state c) = None ∧ activeJob (state c) = None) ∧
  (∀ s0,
     let c := run (JobComplete s0 :: mid ++ [JobComplete s]) ctx in
     last (pushed (channel c)) =
       Some (RUN_COMPLETE None None (randomUUID (S (draws ctx))) (stringify s))).
Proof.
  intros Hq. split.
  - intros j c. subst c. cbn [Attempt.run fold_left].
    change (fold_left step (mid ++ [JobComplete s]) ?c)
      with (run (mid ++ [JobComplete s]) c).
    rewrite run_app.
    destruct (quiet_run mid (step ctx (JobStart j)) Hq) as [Hs Hd].
    cbn [Attempt.run fold_left]. unfold Attempt.step at 1. simpl.
    rewrite Hs, Hd. simpl. by rewrite last_pushed_snoc.
  - intros s0 c. subst c. cbn [Attempt.run fold_left].
    change (fold_left step (mid ++ [JobComplete s]) ?c)
      with (run (mid ++ [JobComplete s]) c).
    rewrite run_app.
    destruct (quiet_run mid (step ctx (JobComplete s0)) Hq) as [Hs Hd].
    cbn [Attempt.run fold_left]. unfold Attempt.step at 1. simpl.
    rewrite Hs, Hd. simpl. by rewrite last_pushed_snoc.
Qed.

(** A log line is forwarded with the attempt id, and with the run id of
    the job that is running (when that id is not the empty string); once
    the job has completed, and until the next one starts, it carries no
    run id. *)
Theorem log_carries_the_active_run
    (ctx : Context) (mid : list Event) (l : JsValue) :
  quiet mid = true →
  (∀ j, randomUUID (draws ctx) ≠ EmptyString →
     last (pushed (channel (run (JobStart j :: mid ++ [Log l]) ctx))) =
       Some (ATTEMPT_LOG l (plan_id (state ctx)) (Some (randomUUID (draws ctx))))) ∧
  (∀ s,
     last (pushed (channel (run (JobComplete s :: mid ++ [Log l]) ctx))) =
       Some (ATTEMPT_LOG l (plan_id (state ctx)) None)).
Proof.
  intros Hq. split.
  - intros j Hne. cbn [Attempt.run fold_left].
    change (fold_left step (mid ++ [Log l]) ?c) with (run (mid ++ [Log l]) c).
    rewrite run_app.
    destruct (quiet_run mid (step ctx (JobStart j)) Hq) as [Hs Hd].
    cbn [Attempt.run fold_left]. unfold Attempt.step at 1. simpl.
    rewrite Hs. simpl.
    destruct (String.eqb_spec (randomUUID (draws ctx)) EmptyString); [done|].
    simpl. by rewrite last_pushed_snoc.
  - intros s. cbn [Attempt.run fold_left].
    change (fold_left step (mid ++ [Log l]) ?c) with (run (mid ++ [Log l]) c).
    rewrite run_app.
    destruct (quiet_run mid (step ctx (JobComplete s)) Hq) as [Hs Hd].
    cbn [Attempt.run fold_left]. unfold Attempt.step at 1. simpl.
    rewrite Hs. simpl. by rewrite last_pushed_snoc.
Qed.

Lemma step_pushes ctx ev :
  ∃ new, pushed (channel (step ctx ev)) = (pushed (channel ctx) ++ new)%list ∧
         (length new ≤ 1)%nat ∧
         (is_Some (dataclips (state ctx)) →
            length new = 1 ∧ is_Some (dataclips (state (step ctx ev)))).
Proof.
  unfold Attempt.step. destruct ev; simpl; try (eexists [_]; by eauto).
  unfold onWorkflowComplete. destruct (dataclips (state ctx)) eqn:E; simpl.
  - eexists [_]. rewrite E. by eauto.
  - exists []. rewrite app_nil_r. split; [done|]. split; [simpl; lia|].
    by intros [? ?].
Qed.

(** The handlers only ever add to what was pushed, at most one message
    per event and in the order of the events; once a job has completed,
    exactly one message per event. *)
Theorem messages_are_only_appended (evs : list Event) (ctx : Context) :
  ∃ new,
    pushed (channel (run evs ctx)) = (pushed (channel ctx) ++ new)%list ∧
    (length new ≤ length evs)%nat ∧
    (is_Some (dataclips (state ctx)) → length new = length evs).
Proof.
  revert ctx. induction evs as [|ev evs IH]; intros ctx.
  - exists []. by rewrite app_nil_r.
  - destruct (step_pushes ctx ev) as (n1 & H1 & L1 & D1).
    destruct (IH (step ctx ev)) as (n2 & H2 & L2 & D2).
    exists (n1 ++ n2)%list. cbn [Attempt.run fold_left].
    change (fold_left step evs ?c) with (run evs c).
    rewrite H2, H1, <- app_assoc, length_app. split; [done|].
    split; [simpl; lia|].
    intros Hd. destruct (D1 Hd) as [E1 Hd']. rewrite (D2 Hd'), E1. done.
Qed.

(** What [every_clip_is_kept] maintains: each RUN_COMPLETE pushed names a
    clip that is stored, under an id drawn earlier, and whose text is the
    one that was pushed. *)
Lemma clips_step ctx ev :
  (∀ m n, randomUUID m = randomUUID n → m = n) →
  (∀ r j i str, RUN_COMPLETE r j i str ∈ pushed (channel ctx) →
     ∃ n clips s, (n < draws ctx)%nat ∧ i = randomUUID n ∧
       dataclips (state ctx) = Some clips ∧ clips !! i = Some s ∧
       stringify s = str) →
  (∀ r j i str, RUN_COMPLETE r j i str ∈ pushed (channel (step ctx ev)) →
     ∃ n clips s, (n < draws (step ctx ev))%nat ∧ i = randomUUID n ∧
       dataclips (state (step ctx ev)) = Some clips ∧ clips !! i = Some s ∧
       stringify s = str).
Proof.
  intros Hinj Hinv r j i str. unfold Attempt.step.
  destruct ev as [|jobId|s|l|]; simpl.
  - intros [Hin|Hin%list_elem_of_singleton]%elem_of_app; [|done].
    by apply (Hinv r j).
  - intros [Hin|Hin%list_elem_of_singleton]%elem_of_app; [|done].
    destruct (Hinv r j i str Hin) as (n & clips & s & Hn & ? & ? & ? & ?).
    exists n, clips, s. split; [lia|done].
  - intros [Hin|Hin%list_elem_of_singleton]%elem_of_app.
    + destruct (Hinv r j i str Hin) as (n & clips & s0 & Hn & -> & Hc & Hl & Hs).
      exists n. eexists _, s0. split; [lia|]. split; [done|]. split; [done|].
      rewrite Hc. split; [|done]. rewrite lookup_insert_ne; [done|].
      intros Heq%Hinj. lia.
    + injection Hin as -> -> -> ->.
      exists (draws ctx). eexists _, s. split; [lia|]. split; [done|].
      split; [done|]. split; [apply lookup_insert_eq|done].
  - intros [Hin|Hin%list_elem_of_singleton]%elem_of_app; [|done].
    by apply (Hinv r j).
  - unfold onWorkflowComplete. destruct (dataclips (state ctx)) eqn:E; simpl.
    + intros [Hin|Hin%list_elem_of_singleton]%elem_of_app; [|done].
      destruct (Hinv r j i str Hin) as (n & clips & s & Hn & ? & Hc & ? & ?).
      exists n, clips, s. by rewrite E.
    + intros Hin. destruct (Hinv r j i str Hin) as (n & clips & s & _ & _ & Hc & _).
      discriminate Hc.
Qed.

(** As long as [crypto.randomUUID] never repeats an id, every dataclip
    announced by a RUN_COMPLETE stays in the clip table of the attempt,
    under the id announced, and the text pushed as [output_dataclip] is
    the [stringify] of the clip stored. *)
Theorem every_clip_is_kept (id : option string) (evs : list Event) :
  (∀ m n, randomUUID m = randomUUID n → m = n) →
  ∀ r j i str,
    RUN_COMPLETE r j i str ∈ pushed (channel (run evs (initial_context id))) →
    ∃ clips s,
      dataclips (state (run evs (initial_context id))) = Some clips ∧
      clips !! i = Some s ∧ stringify s = str.
Proof.
  intros Hinj.
  assert (∀ ctx,
    (∀ r j i str, RUN_COMPLETE r j i str ∈ pushed (channel ctx) →
       ∃ n clips s, (n < draws ctx)%nat ∧ i = randomUUID n ∧
         dataclips (state ctx) = Some clips ∧ clips !! i = Some s ∧
         stringify s = str) →
    (∀ r j i str, RUN_COMPLETE r j i str ∈ pushed (channel (run evs ctx)) →
       ∃ n clips s, (n < draws (run evs ctx))%nat ∧ i = randomUUID n ∧
         dataclips (state (run evs ctx)) = Some clips ∧ clips !! i = Some s ∧
         stringify s = str)) as Hrun.
  { induction evs as [|ev evs IH]; intros ctx Hinv; [done|].
    cbn [Attempt.run fold_left]. apply IH. by apply clips_step. }
  intros r j i str Hin.
  destruct (Hrun (initial_context id)) with (r := r) (j := j) (i := i) (str := str)
    as (n & clips & s & _ & _ & ? & ? & ?); [|done|by exists clips, s].
  intros ? ? ? ? Hnil. by apply elem_of_nil in Hnil.
Qed.

Lemma no_completion_run evs ctx :
  no_completion evs = true →
  dataclips (state (run evs ctx)) = dataclips (state ctx) ∧
  result (state (run evs ctx)) = result (state ctx).
Proof.
  revert ctx. induction evs as [|ev evs IH]; intros ctx; [done|].
  simpl. intros [Hev Hq]%andb_prop.
  destruct (IH (step ctx ev) Hq) as [-> ->].
  unfold Attempt.step. destruct ev; try done; simpl.
  unfold onWorkflowComplete. by destruct (dataclips (state ctx)) eqn:E; simpl; rewrite ?E.
Qed.

(** When the workflow completes, the context announces the dataclip of
    the last job that completed, and the value it keeps for [onComplete],
    to be handed over on the 'ok' acknowledgement, is the state that job
    ended with. *)
Theorem attempt_completes_with_the_last_state
    (ctx : Context) (mid : list Event) (s : JsValue) :
  no_completion mid = true →
  let c := run (JobComplete s :: mid ++ [WorkflowComplete]) ctx in
  last (pushed (channel c)) = Some (ATTEMPT_COMPLETE (Some (randomUUID (draws ctx)))) ∧
  last (awaiting_ok (channel c)) = Some (Some s).
Proof.
  intros Hq c. subst c. cbn [Attempt.run fold_left].
  change (fold_left step (mid ++ [WorkflowComplete]) ?c)
    with (run (mid ++ [WorkflowComplete]) c).
  rewrite run_app.
  destruct (no_completion_run mid (step ctx (JobComplete s)) Hq) as [Hd Hr].
  set (c1 := run mid (step ctx (JobComplete s))) in *.
  simpl in Hd, Hr.
  cbn [Attempt.run fold_left].
  unfold Attempt.step, Attempt.deliver, onWorkflowComplete.
  rewrite Hd, Hr. simpl. rewrite lookup_insert_eq. by rewrite !last_snoc.
Qed.

End Facts.

Lemma attempt_completes_witness :
  last (awaiting_ok (channel
          (Attempt.run sample_uuid sample_stringify
             [JobComplete (JObj [("data", JNum 42)]); JobStart "next"; WorkflowComplete]
             (initial_context (Some "attempt-1"))))) =
  Some (Some (JObj [("data", JNum 42)])).
Proof.
  exact (proj2 (attempt_completes_with_the_last_state sample_uuid sample_stringify
                  (initial_context (Some "attempt-1")) [JobStart "next"]
                  (JObj [("data", JNum 42)]) eq_refl)).
Defined.

Lemma run_complete_pairs_witness :
  last (pushed (channel
          (Attempt.run sample_uuid sample_stringify
             [JobStart "job-1"; Log JNull; WorkflowComplete; JobComplete (JObj [])]
             (initial_context (Some "attempt-1"))))) =
  Some (RUN_COMPLETE (Some (sample_uuid 0)) (Some "job-1") (sample_uuid 1) "{}").
Proof.
  exact (proj1 (proj1 (run_complete_pairs_with_its_start sample_uuid sample_stringify
                         (initial_context (Some "attempt-1"))
                         [Log JNull; WorkflowComplete] (JObj []) eq_refl) "job-1")).
Defined.

Lemma log_carries_the_active_run_witness :
  last (pushed (channel
          (Attempt.run sample_uuid sample_stringify
             [JobStart "job-1"; Log (JStr "hello")]
             (initial_context (Some "attempt-1"))))) =
  Some (ATTEMPT_LOG (JStr "hello") (Some "attempt-1") (Some (sample_uuid 0))).
Proof.
  apply (proj1 (log_carries_the_active_run sample_uuid sample_stringify
                  (initial_context (Some "attempt-1")) [] (JStr "hello") eq_refl)
           "job-1").
  discriminate.
Defined.

Lemma messages_are_only_appended_witness :
  ∃ new,
    pushed (channel (Attempt.run sample_uuid sample_stringify
                       [WorkflowComplete; WorkflowStart]
                       (initial_context None))) = ([] ++ new)%list ∧
    (length new ≤ 2)%nat.
Proof.
  destruct (messages_are_only_appended sample_uuid sample_stringify
              [WorkflowComplete; WorkflowStart] (initial_context None))
    as (new & H & L & _).
  exists new. split; [exact H|exact L].
Defined.

Lemma every_clip_is_kept_witness :
  ∃ clips s,
    dataclips (state (Attempt.run sample_uuid sample_stringify
                        [JobStart "a"; JobComplete (JObj []);
                         JobStart "b"; JobComplete JNull]
                        (initial_context None))) = Some clips ∧
    clips !! sample_uuid 1 = Some s ∧ sample_stringify s = "{}".
Proof.
  apply (every_clip_is_kept sample_uuid sample_stringify None
           [JobStart "a"; JobComplete (JObj []); JobStart "b"; JobComplete JNull]
           sample_uuid_inj (Some (sample_uuid 0)) (Some "a")).
  apply list_elem_of_In. vm_compute. right; left; reflexivity.
Defined.

End AttemptMore.

(** ** More on the plan compiler *)

Module CompilerMore.
Import Js Compiler PlanShape Samples.

Lemma generated_id_inj m n : generated_id m = generated_id n → m = n.
Proof.
  unfold generated_id. intros H%AttemptMore.append_inj_prefix.
  by apply (inj pretty).
Qed.

Section Facts.

Variable Predicate : Type.
Variable compileFunction : string → Failure + Predicate.

Local Abbreviation JobSpec := (Compiler.JobSpec Predicate).
Local Abbreviation Edge := (Compiler.Edge Predicate).
Local Abbreviation CompiledExecutionPlan := (Compiler.CompiledExecutionPlan Predicate).
Local Abbreviation compile_edge := (Compiler.compile_edge Predicate compileFunction).
Local Abbreviation scan_edge := (Compiler.scan_edge Predicate compileFunction).
Local Abbreviation compileEdges := (Compiler.compileEdges Predicate compileFunction).
Local Abbreviation compile_job := (Compiler.compile_job Predicate compileFunction).
Local Abbreviation compile_jobs := (Compiler.compile_jobs Predicate compileFunction).
Local Abbreviation compile := (Compiler.compile Predicate compileFunction).
Local Abbreviation edge_failure := (Compiler.edge_failure Predicate compileFunction).

Lemma compile_edge_is_compiled (e c : Edge) :
  compile_edge e = inr c → is_compiled c = true.
Proof.
  destruct e as [b|src|[cond oth]]; simpl.
  - by intros [= <-].
  - destruct (compileFunction src); [done|]. by intros [= <-].
  - destruct cond as [[src|p]|]; simpl.
    + destruct (compileFunction src); [done|]. by intros [= <-].
    + by intros [= <-].
    + by intros [= <-].
Qed.

Local Abbreviation scan_edges := (Compiler.scan_edges Predicate compileFunction).

(** Under distinct keys the scan appends, in order, the compiled form of
    every entry that compiles. *)
Lemma scan_appends from (entries : list (string * Edge)) errs acc errs' acc' :
  NoDup entries.*1 → (∀ k, k ∈ entries.*1 → obj_get k acc = None) →
  scan_edges from entries (errs, acc) = inr (errs', acc') →
  ∃ new,
    acc' = (acc ++ new)%list ∧
    (omap (edge_failure from) entries = [] →
     Forall2 (λ kv kv', kv'.1 = kv.1 ∧ compile_edge kv.2 = inr kv'.2) entries new).
Proof.
  revert errs acc. induction entries as [|[k e] entries IH]; intros errs acc Hnd Hfresh.
  - intros [= <- <-]. exists []. by rewrite app_nil_r.
  - rewrite fmap_cons in Hnd. apply NoDup_cons in Hnd as [Hk Hnd]. simpl in Hk.
    cbn [Compiler.scan_edges].
    destruct (CompilerFacts.scan_edge_cases Predicate compileFunction from errs acc k e)
      as [(c & He & Hnone_e & _ & ->)|[(m & Hsome & _ & ->)|(t & _ & ->)]]; [| |done].
    + rewrite CompilerFacts.obj_set_fresh
        by (apply Hfresh; rewrite fmap_cons; by apply elem_of_cons; left).
      intros Hscan.
      destruct (IH errs (acc ++ [(k, c)])%list Hnd) as (new & Hnew & Hall);
        [|exact Hscan|].
      { intros k' Hk'. rewrite CompilerFacts.obj_get_app.
        rewrite Hfresh by (rewrite fmap_cons; by apply elem_of_cons; right). simpl.
        destruct (String.eqb_spec k' k) as [->|]; done. }
      exists ((k, c) :: new). rewrite Hnew, <- app_assoc. split; [done|].
      intros Hnone. cbn [omap list_omap] in Hnone. rewrite Hnone_e in Hnone.
      constructor; [done|]. by apply Hall.
    + intros Hscan.
      destruct (IH (errs ++ [Error m])%list acc Hnd) as (new & Hnew & _);
        [|exact Hscan|].
      { intros k' Hk'. apply Hfresh. rewrite fmap_cons. by apply elem_of_cons; right. }
      exists new. split; [done|]. intros Hnone. exfalso. revert Hnone.
      cbn [omap list_omap]. by rewrite Hsome.
Qed.


(** *** Which job is found upstream *)

(** [findUpstream] returns nothing when no job mentions the id, and
    otherwise stops at the first job that does: its id when it points
    through a map, but the id looked for itself when it points through a
    string. *)
Theorem findUpstream_stops_at_the_first_mention (js : list JobSpec) (target : string) :
  (Forall (λ j, mentions j target = false) js → findUpstream js target = None) ∧
  (∀ pre a post,
     js = (pre ++ a :: post)%list →
     Forall (λ j, mentions j target = false) pre →
     mentions a target = true →
     findUpstream js target =
       match next a with
       | Some (NextId _) => Some target
       | _ => id a
       end).
Proof.
  split.
  - intros Hall. rewrite <- (app_nil_r js).
    by rewrite CompilerFacts.findUpstream_skip.
  - intros pre a post -> Hpre Ha.
    rewrite CompilerFacts.findUpstream_skip by done.
    simpl. unfold mentions in Ha.
    destruct (next a) as [[n|entries]|]; [| |done].
    + rewrite Ha. apply andb_prop in Ha as [_ Hn].
      apply String.eqb_eq in Hn. by subst n.
    + by rewrite Ha.
Qed.

(** *** The ids written by the first loop *)

Lemma ensure_fold_distinct ls (k : nat) (h : gmap loc JobSpec) l1 l2 j1 j2 :
  l1 ∈ ls → l2 ∈ ls → l1 ≠ l2 →
  h !! l1 = Some j1 → h !! l2 = Some j2 →
  truthy_str (id j1) = false → truthy_str (id j2) = false →
  ∃ n1 n2, n1 ≠ n2 ∧
    (fold_left ensure_id ls (k, h)).2 !! l1 = Some (with_id j1 (generated_id n1)) ∧
    (fold_left ensure_id ls (k, h)).2 !! l2 = Some (with_id j2 (generated_id n2)).
Proof.
  revert k h. induction ls as [|l0 ls IH]; intros k h Hin1 Hin2 Hne H1 H2 Hf1 Hf2.
  - by apply elem_of_nil in Hin1.
  - cbn [fold_left].
    destruct (CompilerFacts.ensure_id_cases Predicate k h l0)
      as [[-> Hno]|(job0 & H0 & _ & _ & ->)].
    + unfold lacks_id in Hno.
      apply elem_of_cons in Hin1 as [->|Hin1]; [by rewrite H1, Hf1 in Hno|].
      apply elem_of_cons in Hin2 as [->|Hin2]; [by rewrite H2, Hf2 in Hno|].
      by apply IH.
    + set (h1 := <[l0 := with_id job0 (generated_id (S k))]> h).
      destruct (decide (l1 = l0)) as [->|Hn1]; [|destruct (decide (l2 = l0)) as [->|Hn2]].
      * rewrite H0 in H1. injection H1 as ->.
        apply elem_of_cons in Hin2 as [?|Hin2]; [done|].
        destruct (CompilerFacts.ensure_fold_written Predicate ls (S k) h1 l2 j2)
          as (n2 & Hn2 & Hw2); [done|by unfold h1; rewrite lookup_insert_ne|done|].
        exists (S k), n2. split; [lia|]. split; [|done].
        apply CompilerFacts.ensure_fold_kept; [apply lookup_insert_eq|done].
      * rewrite H0 in H2. injection H2 as ->.
        apply elem_of_cons in Hin1 as [?|Hin1]; [done|].
        destruct (CompilerFacts.ensure_fold_written Predicate ls (S k) h1 l1 j1)
          as (n1 & Hn1' & Hw1); [done|by unfold h1; rewrite lookup_insert_ne|done|].
        exists n1, (S k). split; [lia|]. split; [done|].
        apply CompilerFacts.ensure_fold_kept; [apply lookup_insert_eq|done].
      * apply elem_of_cons in Hin1 as [?|Hin1]; [done|].
        apply elem_of_cons in Hin2 as [?|Hin2]; [done|].
        apply IH; try done; unfold h1; by rewrite lookup_insert_ne.
Qed.

(** Two different job objects of a plan that both lack an id never get
    the same one. *)
Theorem generated_ids_are_distinct
    plan (h : gmap loc JobSpec) (l1 l2 : loc) (j1 j2 : JobSpec) :
  l1 ∈ jobs plan → l2 ∈ jobs plan → l1 ≠ l2 →
  h !! l1 = Some j1 → h !! l2 = Some j2 →
  truthy_str (id j1) = false → truthy_str (id j2) = false →
  ∃ j1' j2',
    (compile plan h).1 !! l1 = Some j1' ∧
    (compile plan h).1 !! l2 = Some j2' ∧
    id j1' ≠ id j2'.
Proof.
  intros Hin1 Hin2 Hne H1 H2 Hf1 Hf2.
  destruct (ensure_fold_distinct (jobs plan) 0 h l1 l2 j1 j2)
    as (n1 & n2 & Hn & Hw1 & Hw2); try done.
  unfold Compiler.compile, Compiler.ensure_ids.
  destruct (fold_left ensure_id (jobs plan) (0, h)) as [n h'].
  simpl in *. eexists _, _. split; [exact Hw1|]. split; [exact Hw2|].
  simpl. intros Heq. apply Hn, generated_id_inj. congruence.
Qed.

(** *** The nodes of the compiled plan *)

Lemma compile_job_makes_node (all : list JobSpec) np errs job np' errs' :
  compile_job all (np, errs) job = inr (np', errs') →
  compiled_jobs np' =
    obj_assign (id_of job) (node_for Predicate compileFunction all job)
      (compiled_jobs np) ∧
  compiled_start np' =
    (if truthy_str (compiled_start np) then compiled_start np else Some (id_of job)).
Proof.
  unfold Compiler.compile_job, node_for.
  destruct (next job) as [n|]; [|by intros [= <- _]].
  destruct (next_present (Some n)); [|by intros [= <- _]].
  destruct (compileEdges (id_of job) n) as [[es|e]|edges]; simpl; [|done|].
  - by intros [= <- _].
  - by intros [= <- _].
Qed.

(** A new array-index key goes among the array-index keys, which stay
    in ascending order, and before every other key. *)
Lemma insert_index_sorted {V} n k (v : V) (indexed named : list (string * V)) :
  array_index k = Some n →
  Forall (λ kv, is_index kv.1 = true) indexed →
  Forall (λ kv, is_index kv.1 = false) named →
  StronglySorted (λ a b, (index_of a.1 ≤ index_of b.1)%N) indexed →
  ∃ indexed',
    insert_index n k v (indexed ++ named) = (indexed' ++ named)%list ∧
    indexed' ≡ₚ (k, v) :: indexed ∧
    Forall (λ kv, is_index kv.1 = true) indexed' ∧
    StronglySorted (λ a b, (index_of a.1 ≤ index_of b.1)%N) indexed'.
Proof.
  intros Hk Hidx Hnamed Hsorted.
  assert (is_index k = true) as Hik by (unfold is_index; by rewrite Hk).
  assert (index_of k = n) as Hn by (unfold index_of; by rewrite Hk).
  induction Hidx as [|[k0 v0] indexed H0 Hidx IH].
  - exists [(k, v)]. split; [|split; [done|split]].
    + destruct Hnamed as [|[k1 v1] named H1 _]; [done|].
      cbn [app insert_index]. unfold is_index in H1. simpl in H1.
      by destruct (array_index k1).
    + by apply Forall_singleton.
    + repeat constructor.
  - apply StronglySorted_inv in Hsorted as [Hsorted Hle].
    unfold is_index in H0. simpl in H0.
    cbn [app insert_index].
    destruct (array_index k0) as [n0|] eqn:E0; [|done].
    assert (index_of k0 = n0) as Hn0 by (unfold index_of; by rewrite E0).
    destruct (n0 <? n)%N eqn:Hlt.
    + destruct (IH Hsorted) as (indexed' & -> & Hperm & Hall & Hs).
      exists ((k0, v0) :: indexed'). split; [done|]. split; [|split].
      * rewrite Hperm. apply perm_swap.
      * apply Forall_cons. split; [|done]. unfold is_index. simpl. by rewrite E0.
      * constructor; [done|]. rewrite Hperm. apply Forall_cons. split; [|done].
        simpl. apply N.ltb_lt in Hlt. lia.
    + exists ((k, v) :: (k0, v0) :: indexed). split; [done|]. split; [done|]. split.
      * apply Forall_cons. split; [done|]. apply Forall_cons. split; [|done].
        unfold is_index. simpl. by rewrite E0.
      * apply N.ltb_ge in Hlt. constructor; [by constructor|].
        apply Forall_cons. split; [simpl; lia|].
        eapply Forall_impl; [exact Hle|]. simpl. intros kv Hkv. lia.
Qed.

Lemma filter_partition {A} (f : A → bool) (l : list A) :
  (List.filter f l ++ List.filter (λ x, negb (f x)) l)%list ≡ₚ l.
Proof.
  induction l as [|x l IH]; [done|]. cbn [List.filter].
  destruct (f x); simpl.
  - by rewrite IH.
  - by rewrite <- Permutation_middle, IH.
Qed.

(** The second loop keeps the nodes in the order in which the compiled
    plan enumerates them. *)
Lemma compile_jobs_enumerated (all todo : list JobSpec) np errs np' errs'
    (indexed named : list (string * CompiledJobNode Predicate)) :
  NoDup (id_of <$> todo) →
  (∀ j, j ∈ todo → obj_get (id_of j) (compiled_jobs np) = None) →
  compiled_jobs np = (indexed ++ named)%list →
  Forall (λ kv, is_index kv.1 = true) indexed →
  Forall (λ kv, is_index kv.1 = false) named →
  StronglySorted (λ a b, (index_of a.1 ≤ index_of b.1)%N) indexed →
  compile_jobs all todo (np, errs) = inr (np', errs') →
  ∃ indexed',
    compiled_jobs np' =
      (indexed' ++ named ++
       List.filter (λ kv, negb (is_index kv.1))
         ((λ j, (id_of j, node_for Predicate compileFunction all j)) <$> todo))%list ∧
    indexed' ≡ₚ
      (indexed ++
       List.filter (λ kv, is_index kv.1)
         ((λ j, (id_of j, node_for Predicate compileFunction all j)) <$> todo))%list ∧
    Forall (λ kv, is_index kv.1 = true) indexed' ∧
    StronglySorted (λ a b, (index_of a.1 ≤ index_of b.1)%N) indexed'.
Proof.
  revert np errs indexed named.
  induction todo as [|job todo IH];
    intros np errs indexed named Hnd Hfresh Hsplit Hidx Hnamed Hsorted.
  - intros [= <- _]. exists indexed. simpl. by rewrite !app_nil_r.
  - rewrite fmap_cons in Hnd. apply NoDup_cons in Hnd as [Hj Hnd].
    cbn [Compiler.compile_jobs].
    destruct (compile_job all (np, errs) job) as [e|[np1 errs1]] eqn:Hjob; [done|].
    apply compile_job_makes_node in Hjob as [Hjobs _].
    assert (obj_get (id_of job) (compiled_jobs np) = None) as Hnew
      by (apply Hfresh; by apply elem_of_cons; left).
    assert (∀ j, j ∈ todo → obj_get (id_of j) (compiled_jobs np1) = None) as Hfresh1.
    { intros j Hin. rewrite Hjobs, CompilerFacts.obj_get_assign.
      destruct (String.eqb_spec (id_of j) (id_of job)) as [Heq|];
        [|apply Hfresh; by apply elem_of_cons; right].
      exfalso. apply Hj. rewrite <- Heq. apply list_elem_of_fmap. by exists j. }
    unfold obj_assign in Hjobs. rewrite Hnew in Hjobs.
    rewrite fmap_cons. cbn [List.filter fst].
    destruct (array_index (id_of job)) as [n|] eqn:En.
    + assert (is_index (id_of job) = true) as -> by (unfold is_index; by rewrite En).
      cbn [negb]. rewrite Hsplit in Hjobs.
      destruct (insert_index_sorted n (id_of job)
                  (node_for Predicate compileFunction all job) indexed named
                  En Hidx Hnamed Hsorted) as (indexed1 & Hins & Hperm & Hidx1 & Hs1).
      rewrite Hins in Hjobs. intros Hrest.
      destruct (IH np1 errs1 indexed1 named Hnd Hfresh1 Hjobs Hidx1 Hnamed Hs1 Hrest)
        as (indexed' & Hjobs' & Hperm' & Hidx' & Hs').
      exists indexed'. split; [done|]. split; [|done].
      rewrite Hperm', Hperm. simpl. by rewrite Permutation_middle.
    + assert (is_index (id_of job) = false) as -> by (unfold is_index; by rewrite En).
      cbn [negb]. rewrite CompilerFacts.obj_set_fresh in Hjobs by done.
      rewrite Hsplit, <- app_assoc in Hjobs. intros Hrest.
      destruct (IH np1 errs1 indexed _ Hnd Hfresh1 Hjobs Hidx) as
        (indexed' & Hjobs' & Hperm' & Hidx' & Hs'); [|done|exact Hrest|].
      { apply Forall_app. split; [done|]. apply Forall_singleton.
        unfold is_index. simpl. by rewrite En. }
      exists indexed'. split; [|done]. rewrite Hjobs'. by rewrite <- !app_assoc.
Qed.

Lemma compile_jobs_start (all todo : list JobSpec) np errs np' errs' :
  Forall (λ j, truthy_str (Some (id_of j)) = true) todo →
  compile_jobs all todo (np, errs) = inr (np', errs') →
  compiled_start np' =
    if truthy_str (compiled_start np) then compiled_start np
    else match head todo with
         | Some j => Some (id_of j)
         | None => compiled_start np
         end.
Proof.
  revert np errs. induction todo as [|job todo IH]; intros np errs Hall.
  - intros [= <- _]. simpl. by destruct (truthy_str (compiled_start np)).
  - apply Forall_cons in Hall as [Hjob Hall]. cbn [Compiler.compile_jobs].
    destruct (compile_job all (np, errs) job) as [e|[np1 errs1]] eqn:Hc; [done|].
    apply compile_job_makes_node in Hc as [_ Hstart].
    intros Hrest. rewrite (IH np1 errs1 Hall Hrest), Hstart. simpl.
    destruct (truthy_str (compiled_start np)) eqn:Ht; [by rewrite Ht|].
    by rewrite Hjob.
Qed.

Lemma compile_jobs_lookup (all todo : list JobSpec) np errs np' errs' k :
  compile_jobs all todo (np, errs) = inr (np', errs') →
  obj_get k (compiled_jobs np') =
    match last (List.filter (λ j, String.eqb (id_of j) k) todo) with
    | Some j => Some (node_for Predicate compileFunction all j)
    | None => obj_get k (compiled_jobs np)
    end.
Proof.
  revert np errs. induction todo as [|job todo IH]; intros np errs.
  - by intros [= <- _].
  - cbn [Compiler.compile_jobs].
    destruct (compile_job all (np, errs) job) as [e|[np1 errs1]] eqn:Hjob; [done|].
    apply compile_job_makes_node in Hjob as [Hjobs _].
    intros Hrest. rewrite (IH np1 errs1 Hrest), Hjobs, CompilerFacts.obj_get_assign.
    cbn [List.filter]. rewrite (String.eqb_sym k).
    destruct (String.eqb (id_of job) k) eqn:Hk.
    + destruct (List.filter _ todo) as [|j js] eqn:E; [reflexivity|].
      rewrite last_cons_cons.
      destruct (last (j :: js)) eqn:El; [reflexivity|].
      by apply last_None in El.
    + reflexivity.
Qed.

Lemma compile_success_inv plan (h h' : gmap loc JobSpec) (c : CompiledExecutionPlan) :
  compile plan h = (h', inr c) →
  ∃ errs,
    compile_jobs (deref h' (jobs plan)) (deref h' (jobs plan))
      (mkCompiledExecutionPlan [] (start plan), []) = inr (c, errs) ∧
    ∀ j, j ∈ deref h' (jobs plan) →
         truthy_str (id j) = true ∧ id j = Some (id_of j).
Proof.
  intros Hc.
  assert (∀ j, j ∈ deref h' (jobs plan) →
               truthy_str (id j) = true ∧ id j = Some (id_of j)) as Hids.
  { intros j Hj. apply (CompilerFacts.compiled_ids_truthy Predicate compileFunction plan h).
    by rewrite Hc. }
  revert Hc. unfold Compiler.compile.
  destruct (ensure_ids (jobs plan) h) as [n h1]. intros [= -> Hc].
  unfold Compiler.compile_loaded in Hc.
  destruct (compile_jobs (deref h' (jobs plan)) (deref h' (jobs plan))
              (mkCompiledExecutionPlan [] (start plan), []))
    as [e|[np errs]] eqn:Hjobs; [done|].
  destruct errs; [|done]. injection Hc as ->. by exists [].
Qed.

(** The start of a compiled plan is the plan's own [start] when it has a
    non-empty one, otherwise the id of the first job (a generated one if
    that job had none); a plan without jobs keeps the [start] it had. *)
Theorem compiled_start_defaults_to_first_job
    plan (h h' : gmap loc JobSpec) (c : CompiledExecutionPlan) :
  compile plan h = (h', inr c) →
  compiled_start c =
    if truthy_str (start plan) then start plan
    else match head (deref h' (jobs plan)) with
         | Some j => id j
         | None => start plan
         end.
Proof.
  intros (errs & Hjobs & Hids)%compile_success_inv.
  erewrite compile_jobs_start; [| |exact Hjobs].
  - simpl. destruct (truthy_str (start plan)); [done|].
    destruct (deref h' (jobs plan)) as [|j js] eqn:E; [done|]. simpl.
    symmetry. apply Hids. by apply elem_of_cons; left.
  - apply Forall_forall. intros j Hj.
    destruct (Hids j Hj) as [Ht Hid]. by rewrite <- Hid.
Qed.


(** Whatever the ids, the node a compiled plan holds under an id is the
    one made of the last job of the array with that id, and there is a
    node under an id exactly when some job has it: a job that shares its
    id with a later one leaves no node of its own. *)
Theorem compiled_node_comes_from_the_last_job
    plan (h h' : gmap loc JobSpec) (c : CompiledExecutionPlan) (k : string) :
  compile plan h = (h', inr c) →
  obj_get k (compiled_jobs c) =
    node_for Predicate compileFunction (deref h' (jobs plan)) <$>
      last (List.filter (λ j, String.eqb (id_of j) k) (deref h' (jobs plan))).
Proof.
  intros (errs & Hjobs & _)%compile_success_inv.
  rewrite (compile_jobs_lookup _ _ _ _ _ _ k Hjobs). simpl.
  by destruct (last _).
Qed.

End Facts.


Lemma findUpstream_first_mention_witness :
  findUpstream [job (Some "a") (Some (NextId "b")); job (Some "b") None] "b" = Some "b".
Proof.
  exact (proj2 (findUpstream_stops_at_the_first_mention string
                  [job (Some "a") (Some (NextId "b")); job (Some "b") None] "b")
           [] (job (Some "a") (Some (NextId "b"))) [job (Some "b") None]
           eq_refl (Forall_nil_2 _) eq_refl).
Defined.

Lemma generated_ids_witness :
  ∃ j1' j2',
    (Compiler.compile string sample_compileFunction three_jobs anonymous_store).1
      !! 0%nat = Some j1' ∧
    (Compiler.compile string sample_compileFunction three_jobs anonymous_store).1
      !! 2%nat = Some j2' ∧
    id j1' ≠ id j2'.
Proof.
  apply (generated_ids_are_distinct string sample_compileFunction three_jobs
           anonymous_store 0%nat 2%nat (job None None) (job None None));
    try reflexivity; try discriminate.
  - apply (bool_decide_unpack _). vm_compute. exact I.
  - apply (bool_decide_unpack _). vm_compute. exact I.
Defined.

Lemma pipeline_compiles :
  Compiler.compile string sample_compileFunction three_jobs pipeline_store =
  ((Compiler.compile string sample_compileFunction three_jobs pipeline_store).1,
   inr pipeline_compiled).
Proof. vm_compute. reflexivity. Qed.

Lemma compiled_node_witness :
  obj_get "job-2" (compiled_jobs pipeline_compiled) =
  Some (mkCompiledJobNode "job-2" (JStr "fn(s => s)") None None None (Some "job-2")).
Proof.
  rewrite (compiled_node_comes_from_the_last_job string sample_compileFunction
             three_jobs pipeline_store _ pipeline_compiled "job-2" pipeline_compiles).
  reflexivity.
Defined.

Lemma compiled_start_witness : compiled_start pipeline_compiled = Some "job-1".
Proof.
  rewrite (compiled_start_defaults_to_first_job string sample_compileFunction
             three_jobs pipeline_store _ _ pipeline_compiles).
  reflexivity.
Defined.

Lemma numbered_compiles :
  Compiler.compile string sample_compileFunction three_jobs numbered_store =
  (numbered_store, inr numbered_compiled).
Proof. vm_compute. reflexivity. Qed.


End CompilerMore.

(** ** More on the worker's command line *)

Module CliMore.
Import Cli Startup Samples.

(** *** Numerals *)

Lemma digit_value_pretty_char (d : N) :
  (d < 10)%N → digit_value (pretty_N_char d) = Some (Z.of_N d).
Proof.
  intros Hd.
  assert (d = 0 ∨ d = 1 ∨ d = 2 ∨ d = 3 ∨ d = 4 ∨ d = 5 ∨ d = 6 ∨ d = 7 ∨ d = 8
          ∨ d = 9)%N as H by lia.
  repeat (destruct H as [->|H]; [reflexivity|]). by subst d.
Qed.

(** Reading the digits written for [x] continues the number read so far. *)
Lemma digits_pretty_go (x : N) (s : string) (acc : option Z) :
  (0 < x)%N →
  ∃ k : Z, (0 ≤ k)%Z ∧
    digits 10 (pretty_N_go x s) acc =
    digits 10 s (Some (default 0 acc * 10 ^ k + Z.of_N x))%Z.
Proof.
  revert s acc. induction (N.lt_wf_0 x) as [x _ IH]; intros s acc Hx.
  rewrite pretty_N_go_step by done.
  assert (x `mod` 10 < 10)%N as Hmod by (by apply N.mod_lt).
  assert (Z.of_N x = Z.of_N (x `div` 10) * 10 + Z.of_N (x `mod` 10))%Z as Hdm.
  { rewrite (N.div_mod x 10) at 1 by done. lia. }
  destruct (decide (x `div` 10 = 0)%N) as [Hz|Hnz].
  - rewrite Hz, pretty_N_go_0. cbn [digits].
    rewrite digit_value_pretty_char by done.
    assert ((Z.of_N (x `mod` 10) <? 10)%Z = true) as -> by (apply Z.ltb_lt; lia).
    exists 1%Z. split; [lia|]. do 2 f_equal. rewrite Hz in Hdm. lia.
  - destruct (IH (x `div` 10)%N) with
      (s := String (pretty_N_char (x `mod` 10)) s) (acc := acc)
      as (k & Hk & ->); [by apply N.div_lt|lia|].
    cbn [digits]. rewrite digit_value_pretty_char by done.
    assert ((Z.of_N (x `mod` 10) <? 10)%Z = true) as -> by (apply Z.ltb_lt; lia).
    exists (k + 1)%Z. split; [lia|]. do 2 f_equal. simpl.
    rewrite Z.pow_add_r by lia. lia.
Qed.

(** A positive number is written with a leading digit from 1 to 9: no
    white space, no sign and no [0x] in front. *)
Lemma pretty_go_leading (x : N) (s : string) :
  (0 < x)%N →
  ∃ d rest, (1 ≤ d ≤ 9)%N ∧ pretty_N_go x s = String (pretty_N_char d) rest.
Proof.
  revert s. induction (N.lt_wf_0 x) as [x _ IH]; intros s Hx.
  rewrite pretty_N_go_step by done.
  destruct (decide (x `div` 10 = 0)%N) as [Hz|Hnz].
  - rewrite Hz, pretty_N_go_0. exists (x `mod` 10)%N, s. split; [|done].
    pose proof (N.div_mod x 10). pose proof (N.mod_lt x 10). lia.
  - apply IH; [by apply N.div_lt|by apply N.neq_0_lt_0].
Qed.

Lemma parseInt_leading (d : N) (rest : string) (radix : option Z) :
  (1 ≤ d ≤ 9)%N → radix = None ∨ radix = Some 10%Z →
  parseInt (String (pretty_N_char d) rest) radix =
  match digits 10 (String (pretty_N_char d) rest) None with
  | Some v => to_double v
  | None => NaN
  end.
Proof.
  intros Hd Hr.
  assert (d = 1 ∨ d = 2 ∨ d = 3 ∨ d = 4 ∨ d = 5 ∨ d = 6 ∨ d = 7 ∨ d = 8 ∨ d = 9)%N
    as H by lia.
  destruct Hr as [-> | ->];
    repeat (destruct H as [->|H]; [reflexivity|]); by subst d.
Qed.

Lemma parseInt_pretty (n : nat) (radix : option Z) :
  radix = None ∨ radix = Some 10%Z →
  parseInt (pretty n) radix = to_double (Z.of_nat n).
Proof.
  intros Hr. unfold pretty, pretty_nat, pretty, pretty_N.
  destruct (decide (N.of_nat n = 0)%N) as [Hz|Hnz].
  - assert (n = 0) as -> by lia. by destruct Hr as [-> | ->].
  - assert (0 < N.of_nat n)%N as Hpos by lia.
    destruct (pretty_go_leading (N.of_nat n) EmptyString Hpos) as (d & rest & Hd & Heq).
    destruct (digits_pretty_go (N.of_nat n) EmptyString None Hpos) as (k & _ & Hdig).
    rewrite Heq in *. rewrite parseInt_leading by done.
    rewrite Hdig. simpl. f_equal. lia.
Qed.

(** Below 2^53 nothing is rounded. *)
Lemma to_double_exact (z : Z) : (Z.abs z < 2 ^ 53)%Z → to_double z = Int z.
Proof.
  intros Hz. unfold to_double.
  by assert ((Z.abs z <? 2 ^ 53)%Z = true) as -> by (by apply Z.ltb_lt).
Qed.



(** Past 2^53 the number read is not the number written: 2^53 + 1 is
    read as 2^53. *)
Example parseInt_rounds :
  parseInt "9007199254740993" None = Int 9007199254740992 ∧
  parseInt "9007199254740995" None = Int 9007199254740996.
Proof. by vm_compute. Qed.

(** *** Splitting *)

Lemma split_nonempty sep s : split sep s ≠ [].
Proof.
  destruct s as [|c s]; simpl; [done|].
  destruct (Ascii.eqb c sep); [done|]. by destruct (split sep s).
Qed.

Lemma split_lacks sep s : lacks sep s = true → split sep s = [s].
Proof.
  induction s as [|c s IH]; simpl; [done|].
  intros [Hc Hs]%andb_prop. apply negb_true_iff in Hc. rewrite Hc.
  by rewrite IH.
Qed.

Lemma split_at_first sep s1 s2 :
  lacks sep s1 = true →
  split sep (s1 +:+ String sep s2) = s1 :: split sep s2.
Proof.
  induction s1 as [|c s1 IH]; simpl.
  - intros _. by rewrite Ascii.eqb_refl.
  - intros [Hc Hs]%andb_prop. apply negb_true_iff in Hc. rewrite Hc.
    by rewrite IH.
Qed.

Lemma split_pieces_lack sep s : Forall (λ piece, lacks sep piece = true) (split sep s).
Proof.
  induction s as [|c s IH]; simpl; [by repeat constructor|].
  destruct (Ascii.eqb c sep) eqn:Hc; [by constructor|].
  destruct (split sep s) as [|piece pieces]; [by repeat constructor; simpl; rewrite Hc|].
  apply Forall_cons in IH as [Hp Hps]. constructor; [|done].
  simpl. by rewrite Hc, Hp.
Qed.

Lemma concat_split sep s : String.concat (String sep EmptyString) (split sep s) = s.
Proof.
  induction s as [|c s IH]; simpl; [done|].
  pose proof (split_nonempty sep s) as Hne.
  destruct (Ascii.eqb_spec c sep) as [->|Hc].
  - destruct (split sep s) as [|piece pieces] eqn:E; [done|].
    cbn [String.concat]. simpl in *. by rewrite IH.
  - destruct (split sep s) as [|piece pieces] eqn:E; [done|].
    destruct pieces; simpl in *; by rewrite <- IH.
Qed.

(** WORKER_STATE_PROPS_TO_REMOVE, when set to some text and no flag is
    given, is split at every comma: the pieces hold no comma, there is at
    least one, and joined by commas they give the text back. *)
Theorem state_props_are_the_comma_separated_pieces (e : Env) (text : string) :
  text ≠ EmptyString →
  WORKER_STATE_PROPS_TO_REMOVE e = Some text →
  ∃ props,
    statePropsToRemove (args no_flags e) = Some props ∧
    props ≠ [] ∧
    Forall (λ piece, lacks ","%char piece = true) props ∧
    String.concat "," props = text.
Proof.
  intros Hne He. exists (split ","%char text). simpl. rewrite He.
  rewrite CliFacts.if_set_nonempty by done. simpl.
  split; [done|]. split; [apply split_nonempty|].
  split; [apply split_pieces_lack|apply concat_split].
Qed.

Lemma state_props_witness :
  ∃ props,
    statePropsToRemove (args no_flags three_props) = Some props ∧
    String.concat "," props = "configuration,response,token".
Proof.
  destruct (state_props_are_the_comma_separated_pieces three_props
              "configuration,response,token") as (props & H & _ & _ & Hc);
    [discriminate|reflexivity|].
  exists props. split; [exact H|exact Hc].
Defined.

Lemma lacks_pretty_go (c : ascii) (x : N) (s : string) :
  (∀ d, Ascii.eqb (pretty_N_char d) c = false) →
  lacks c s = true → lacks c (pretty_N_go x s) = true.
Proof.
  intros Hc. revert s. induction (N.lt_wf_0 x) as [x _ IH]; intros s Hs.
  destruct (decide (0 < x)%N) as [Hx|Hx].
  - rewrite pretty_N_go_step by done. apply IH; [by apply N.div_lt|].
    simpl. by rewrite Hc, Hs.
  - assert (x = 0)%N as -> by lia. by rewrite pretty_N_go_0.
Qed.

Lemma lacks_slash_pretty (n : nat) : lacks "/"%char (pretty n) = true.
Proof.
  unfold pretty, pretty_nat, pretty, pretty_N.
  destruct (decide (N.of_nat n = 0)%N); [done|].
  apply lacks_pretty_go; [|done].
  intros d. unfold pretty_N_char. by repeat case_match.
Qed.



(** *** The secret *)

(** The worker goes on only with a non-empty secret: against the mock
    Lightning it takes 'abdefg' when none is given and moves to the mock's
    address; against any other address it exits with code 1 when the
    secret is missing or empty, and otherwise leaves the arguments as they
    are. *)
Theorem worker_goes_on_only_with_a_secret (a : Args) :
  match check_secret a with
  | Proceed a' =>
      Js.truthy_str (secret a') = true ∧
      (lightning a = Some "mock" →
         lightning a' = Some "ws://localhost:8888/worker" ∧
         (Js.truthy_str (secret a) = true → secret a' = secret a) ∧
         (Js.truthy_str (secret a) = false → secret a' = Some "abdefg")) ∧
      (lightning a ≠ Some "mock" → a' = a)
  | Exit code =>
      code = 1%Z ∧ lightning a ≠ Some "mock" ∧ Js.truthy_str (secret a) = false
  end.
Proof.
  unfold check_secret. destruct (lightning a) as [url|] eqn:Hl.
  - destruct (String.eqb_spec url "mock") as [->|Hne].
    + destruct (Js.truthy_str (secret a)) eqn:Hs; simpl; rewrite ?Hs; by auto.
    + destruct (Js.truthy_str (secret a)) eqn:Hs.
      * split; [done|]. split; [|done]. intros [= ?]. done.
      * split; [done|]. split; [|done]. intros [= ?]. done.
  - destruct (Js.truthy_str (secret a)) eqn:Hs; by auto.
Qed.

End CliMore.
